(** * wggf-monthly-digest: a shallow embedding of the scraper and its properties

    The development follows [wggf-monthly-digest.py] top to bottom: Python
    strings and the few [str] methods the script calls, the exceptions and
    the effects (logging, printing, network, files) it performs, then
    [ProgressBar], [data_url], [url_to_filename], [is_empty], [get_digest],
    [write_digest] and [fetch].  Theorems come after all the definitions. *)

From Stdlib Require Import ZArith List String Ascii Bool Lia Permutation Sorted.
From Stdlib Require Import Numbers.DecimalString Numbers.DecimalZ.
Import ListNotations.

Set Warnings "-register-all".

Local Open Scope Z_scope.
Local Open Scope list_scope.

(* ===================================================================== *)
(** * Python values used by the script *)
(* ===================================================================== *)

Module Py.

(** A Python [str] is a sequence of Unicode code points, a [bytes] object a
    sequence of integers below 256; both are lists of [Z] here.  Integers
    and strings are unbounded: the limits of memory, and of the conversion
    of an [int] to a [float], are not part of the model. *)
Definition str := list Z.
Definition bytes := list Z.

(** A string literal of the source, character by character. *)
Definition lit (s : string) : str :=
  map (fun a => Z.of_N (N_of_ascii a)) (list_ascii_of_string s).

(** Built-in exceptions the script can meet. *)
Inductive Exn : Type :=
| IndexError
| TypeError
| ValueError
| ZeroDivisionError
| UnicodeDecodeError
| OSError
| ClientError.

(** The outcome of evaluating an expression: a value or a raised exception. *)
Inductive Res (A : Type) : Type :=
| Ok (a : A)
| Raise (e : Exn).
Arguments Ok {A} a.
Arguments Raise {A} e.

(** [len(s)]. *)
Definition len {A : Type} (s : list A) : Z := Z.of_nat (List.length s).

(** [s.startswith(p)], as a structural comparison of the two character
    sequences. *)
Fixpoint startswith (p s : str) : bool :=
  match p, s with
  | [], _ => true
  | _ :: _, [] => false
  | a :: p', b :: s' => (a =? b) && startswith p' s'
  end.

(** [s.endswith(p)]. *)
Definition endswith (p s : str) : bool := startswith (rev p) (rev s).

(** [p in s] for two strings: [p] occurs in [s] as a contiguous run. *)
Fixpoint contains (p s : str) : bool :=
  startswith p s ||
  match s with
  | [] => false
  | _ :: s' => contains p s'
  end.

(** [s.split(sep)] for a non-empty separator: scan from the left; at each
    occurrence of [sep] close the current piece and jump over the
    separator.  [skip] counts the separator characters still to jump. *)
Fixpoint split_go (sep : str) (skip : nat) (s : str) : list str :=
  match s with
  | [] => [[]]
  | c :: s' =>
      match skip with
      | S k => split_go sep k s'
      | O =>
          if startswith sep s
          then [] :: split_go sep (Nat.pred (List.length sep)) s'
          else match split_go sep O s' with
               | h :: t => (c :: h) :: t
               | [] => [[c]]
               end
      end
  end.

(** [s.split(sep)]; an empty separator raises [ValueError]. *)
Definition split (sep s : str) : Res (list str) :=
  match sep with
  | [] => Raise ValueError
  | _ :: _ => Ok (split_go sep O s)
  end.

(** [s.replace(old, new)] for a non-empty [old]: occurrences are replaced
    left to right without overlap. *)
Fixpoint replace_go (old new : str) (skip : nat) (s : str) : str :=
  match s with
  | [] => []
  | c :: s' =>
      match skip with
      | S k => replace_go old new k s'
      | O =>
          if startswith old s
          then new ++ replace_go old new (Nat.pred (List.length old)) s'
          else c :: replace_go old new O s'
      end
  end.

(** [s.replace(old, new)]; with an empty [old], [new] is put before every
    character and at the end. *)
Definition replace (old new s : str) : str :=
  match old with
  | [] => flat_map (fun c => new ++ [c]) s ++ new
  | _ :: _ => replace_go old new O s
  end.

(** [l[i]]: a negative index counts from the end, an index out of range
    raises [IndexError]. *)
Definition index {A : Type} (l : list A) (i : Z) : Res A :=
  let j := if i <? 0 then i + len l else i in
  if j <? 0 then Raise IndexError
  else match nth_error l (Z.to_nat j) with
       | Some x => Ok x
       | None => Raise IndexError
       end.

(** [s * n]: repetition; a count of zero or less gives the empty string. *)
Definition repeat_str (s : str) (n : Z) : str :=
  List.concat (List.repeat s (Z.to_nat n)).

(** The characters [0] to [9]. *)
Definition is_digit (c : Z) : Prop := 48 <= c <= 57.

(** [str(n)] for an [int]: decimal digits, a leading minus sign when
    negative. *)
Definition str_of_int (n : Z) : str :=
  lit (NilEmpty.string_of_int (Z.to_int n)).

(** [f"{n:02d}"]: the decimal digits padded with zeros to a width of two,
    the sign counting for the width. *)
Definition format_02d (n : Z) : str :=
  let digits := str_of_int (Z.abs n) in
  let sign := if n <? 0 then lit "-" else [] in
  sign ++ repeat_str (lit "0") (2 - len sign - len digits) ++ digits.

End Py.

Import Py.

(* ===================================================================== *)
(** * Decoding a response body: [bytes.decode("utf-8", errors)] *)
(* ===================================================================== *)

Module Utf8.

(** The decoder reads the input left to right and yields either a code
    point or a rejected run of bytes: a byte that cannot start a sequence,
    or the longest prefix of a sequence that the next byte (or the end of
    the input) breaks. *)
Inductive Item : Type :=
| Char (cp : Z)
| Bad (width : nat).

Definition in_range (lo hi b : Z) : bool := (lo <=? b) && (b <=? hi).

Definition is_cont (b : Z) : bool := in_range 128 191 b.

(** The second byte admitted after a three-byte lead: no overlong forms
    after 0xE0, no surrogates after 0xED. *)
Definition second_of_three (lead b : Z) : bool :=
  if lead =? 224 then in_range 160 191 b
  else if lead =? 237 then in_range 128 159 b
  else is_cont b.

(** The second byte admitted after a four-byte lead: no overlong forms
    after 0xF0, nothing above U+10FFFF after 0xF4. *)
Definition second_of_four (lead b : Z) : bool :=
  if lead =? 240 then in_range 144 191 b
  else if lead =? 244 then in_range 128 143 b
  else is_cont b.

Definition cp2 (b1 b2 : Z) : Z := (b1 - 192) * 64 + (b2 - 128).
Definition cp3 (b1 b2 b3 : Z) : Z :=
  (b1 - 224) * 4096 + (b2 - 128) * 64 + (b3 - 128).
Definition cp4 (b1 b2 b3 b4 : Z) : Z :=
  (b1 - 240) * 262144 + (b2 - 128) * 4096 + (b3 - 128) * 64 + (b4 - 128).

Fixpoint scan (bs : bytes) : list Item :=
  match bs with
  | [] => []
  | b1 :: r1 =>
      if in_range 0 127 b1 then Char b1 :: scan r1
      else if in_range 194 223 b1 then
        match r1 with
        | b2 :: r2 =>
            if is_cont b2 then Char (cp2 b1 b2) :: scan r2
            else Bad 1 :: scan r1
        | [] => Bad 1 :: scan r1
        end
      else if in_range 224 239 b1 then
        match r1 with
        | b2 :: r2 =>
            if second_of_three b1 b2 then
              match r2 with
              | b3 :: r3 =>
                  if is_cont b3 then Char (cp3 b1 b2 b3) :: scan r3
                  else Bad 2 :: scan r2
              | [] => Bad 2 :: scan r2
              end
            else Bad 1 :: scan r1
        | [] => Bad 1 :: scan r1
        end
      else if in_range 240 244 b1 then
        match r1 with
        | b2 :: r2 =>
            if second_of_four b1 b2 then
              match r2 with
              | b3 :: r3 =>
                  if is_cont b3 then
                    match r3 with
                    | b4 :: r4 =>
                        if is_cont b4 then Char (cp4 b1 b2 b3 b4) :: scan r4
                        else Bad 3 :: scan r3
                    | [] => Bad 3 :: scan r3
                    end
                  else Bad 2 :: scan r2
              | [] => Bad 2 :: scan r2
              end
            else Bad 1 :: scan r1
        | [] => Bad 1 :: scan r1
        end
      else Bad 1 :: scan r1
  end.

(** The [errors] argument of [decode]. *)
Inductive Errors : Type := strict | ignore | replace.

(** U+FFFD, the replacement character. *)
Definition REPLACEMENT : Z := 65533.

(** What the error handler makes of the scanned input: [strict] raises at
    the first rejected run, [ignore] leaves it out, [replace] puts one
    U+FFFD in its place. *)
Fixpoint handle (errors : Errors) (items : list Item) : Res str :=
  match items with
  | [] => Ok []
  | Char cp :: rest =>
      match handle errors rest with
      | Ok s => Ok (cp :: s)
      | Raise e => Raise e
      end
  | Bad _ :: rest =>
      match errors with
      | strict => Raise UnicodeDecodeError
      | ignore => handle ignore rest
      | replace =>
          match handle replace rest with
          | Ok s => Ok (REPLACEMENT :: s)
          | Raise e => Raise e
          end
      end
  end.

(** [bs.decode("utf-8", errors)]. *)
Definition decode (errors : Errors) (bs : bytes) : Res str :=
  handle errors (scan bs).

(** The code points among the scanned items, in order. *)
Definition kept (items : list Item) : str :=
  flat_map (fun it => match it with Char cp => [cp] | Bad _ => [] end) items.

(** The scanned items with U+FFFD for each rejected run. *)
Definition marked (items : list Item) : str :=
  map (fun it => match it with Char cp => cp | Bad _ => REPLACEMENT end) items.

(** Bytes that occur in no UTF-8 sequence: 0xC0, 0xC1, 0xF5 and above. *)
Definition never_valid (b : Z) : bool :=
  negb (in_range 0 191 b || in_range 194 244 b).

(** [chr(cp).encode("utf-8")]: the bytes of one code point; surrogates
    and numbers that are no code point are refused. *)
Definition encode_cp (cp : Z) : option bytes :=
  if in_range 0 127 cp then Some [cp]
  else if in_range 128 2047 cp then Some [192 + cp / 64; 128 + cp mod 64]
  else if in_range 2048 65535 cp then
    if in_range 55296 57343 cp then None
    else Some [224 + cp / 4096; 128 + (cp / 64) mod 64; 128 + cp mod 64]
  else if in_range 65536 1114111 cp then
    Some [240 + cp / 262144; 128 + (cp / 4096) mod 64;
          128 + (cp / 64) mod 64; 128 + cp mod 64]
  else None.

(** [s.encode("utf-8")], what a file opened with [encoding="utf-8"] stores
    for the text [s] (no translation of line ends, as on POSIX); [None]
    stands for [UnicodeEncodeError]. *)
Fixpoint encode (s : str) : option bytes :=
  match s with
  | [] => Some []
  | cp :: rest =>
      match encode_cp cp, encode rest with
      | Some b, Some bs => Some (b ++ bs)
      | _, _ => None
      end
  end.

End Utf8.

(* ===================================================================== *)
(** * Paths ([pathlib.Path], POSIX flavour) *)
(* ===================================================================== *)

(** A path is its list of components and whether it starts at the root.
    A root written with two slashes is not told apart from the plain
    root. *)
Record Path : Type := mkPath { anchored : bool; parts : list str }.

Definition list_eqb (a b : str) : bool :=
  if list_eq_dec Z.eq_dec a b then true else false.

(** Components of a path string: the pieces between slashes, empty pieces
    and [.] left out. *)
Definition components (s : str) : list str :=
  filter (fun p => negb (list_eqb p [] || list_eqb p (lit ".")))
         (split_go (lit "/") O s).

(** [Path(s)]. *)
Definition path_of_str (s : str) : Path :=
  mkPath (startswith (lit "/") s) (components s).

(** [Path(p, s)]: a segment that starts at the root replaces what came
    before it, any other segment is appended. *)
Definition path_join (p : Path) (s : str) : Path :=
  let q := path_of_str s in
  if anchored q then q else mkPath (anchored p) (parts p ++ parts q).

(** [p.absolute()] in the working directory [cwd]. *)
Definition absolute (cwd : list str) (p : Path) : Path :=
  if anchored p then p else mkPath true (cwd ++ parts p).

(** [p.parent] and [p.name]. *)
Definition parent (p : Path) : Path := mkPath (anchored p) (removelast (parts p)).
Definition name (p : Path) : str := last (parts p) [].

(* ===================================================================== *)
(** * Effects: what a call prints, logs, sends and writes *)
(* ===================================================================== *)

Inductive Level : Type := DEBUG | INFO | ERROR.

(** The records the script hands to [logger]; the f-strings are kept as
    their parameters. *)
Inductive Msg : Type :=
| EmptyCheckFailed (e : Exn)
| DecodeFailed (url : str) (e : Exn)
| SkippingEmpty (url : str)
| FoundDigest (url : str)
| FailedToScrape (url : str)
| SavedDigest (file : Path)
| ScrapingFrom (n : Z)
| FilesSavedTo (dir : Path)
| Completed.

Inductive Event : Type :=
| EvLog (lvl : Level) (m : Msg)
| EvPrintBar (iteration : Z) (bar : str)
| EvPrintNewline
| EvSessionOpen
| EvPost (url : str) (username password : str)
| EvGet (url : str)
| EvFileWrite (file : Path) (content : str)
| EvAwaited (idx : Z)
| EvSessionClose.

(** A computation yields the events it performed, in order, and its
    result.  An exception ends the computation; the events before it
    stay. *)
Definition Eff (A : Type) : Type := (list Event * Res A)%type.

Definition ret {A : Type} (a : A) : Eff A := ([], Ok a).
Definition throw {A : Type} (e : Exn) : Eff A := ([], Raise e).
Definition emit (ev : Event) : Eff unit := ([ev], Ok tt).
Definition lift {A : Type} (r : Res A) : Eff A := ([], r).

Definition bind {A B : Type} (m : Eff A) (k : A -> Eff B) : Eff B :=
  match m with
  | (evs, Ok a) => let (evs', r) := k a in (evs ++ evs', r)
  | (evs, Raise e) => (evs, Raise e)
  end.

(** [try: m except Exception as e: h(e)]. *)
Definition try_except {A : Type} (m : Eff A) (h : Exn -> Eff A) : Eff A :=
  match m with
  | (evs, Ok a) => (evs, Ok a)
  | (evs, Raise e) => let (evs', r) := h e in (evs ++ evs', r)
  end.

(** [try: m finally: f], the shape of leaving a [with] block. *)
Definition finally {A : Type} (m : Eff A) (f : list Event) : Eff A :=
  (fst m ++ f, snd m).

Declare Scope eff_scope.
Delimit Scope eff_scope with eff.
Notation "x <- m ;; k" := (bind m (fun x => k))
  (at level 61, m at next level, right associativity) : eff_scope.
Notation "m ;; k" := (bind m (fun _ => k))
  (at level 61, right associativity) : eff_scope.
Local Open Scope eff_scope.

Definition events {A : Type} (m : Eff A) : list Event := fst m.
Definition result {A : Type} (m : Eff A) : Res A := snd m.

(* ===================================================================== *)
(** * The script *)
(* ===================================================================== *)

Definition AUTH_URL : str := lit "https://list.genealogy.net/mm/private/westfalengen/".
Definition DATA_URL : str := lit "https://list.genealogy.net/mm/archiv/westfalengen/".

(** [class Options(TypedDict)]. *)
Record Options : Type := mkOptions {
  username : str;
  password : str;
  out_dir : Path;
  verbose : bool
}.

(** ** [class ProgressBar] *)

Record ProgressBar : Type := mkProgressBar {
  iteration : Z;
  total : Z;
  prefix : str;
  suffix : str;
  decimals : Z;
  length : Z;
  fill : str;
  printEnd : str;
  finished : bool
}.

(** [ProgressBar.__init__] with the keywords the main block passes.  The
    default of [fill] is the string the source file holds between the
    quotes, the three characters U+00E2, U+2013 and U+02C6; [printEnd]
    defaults to a carriage return. *)
Definition ProgressBar_init (total : Z) (prefix suffix : str) (length : Z)
  : ProgressBar :=
  mkProgressBar 0 total prefix suffix 1 length [226; 8211; 710] [13] false.

(** The object after [self.finished = True]. *)
Definition set_finished (self : ProgressBar) : ProgressBar :=
  mkProgressBar (iteration self) (total self) (prefix self) (suffix self)
    (decimals self) (length self) (fill self) (printEnd self) true.

(** [ProgressBar.__finish]. *)
Definition ProgressBar_finish (self : ProgressBar) : Eff ProgressBar :=
  emit EvPrintNewline ;;
  ret (set_finished self).

(** The [bar] that [update] prints for [iteration]. *)
Definition ProgressBar_bar (self : ProgressBar) (iteration : Z) : str :=
  let filledLength := (length self * iteration) / total self in
  repeat_str (fill self) filledLength
    ++ repeat_str (lit "-") (length self - filledLength).

(** The largest precision a format specification takes, that of a C
    [int]. *)
Definition INT_MAX : Z := 2147483647.

(** [percent], as far as it decides how the call goes on.  The argument
    of [format] is computed first, and [iteration / float(self.total)]
    raises on a total of zero.  Then the format specification is read,
    [".<decimals>f"]: the precision must be written in digits, which the
    [str] of a negative number is not, and must fit a C [int]; otherwise
    [format] raises [ValueError].  The digits of the percentage, a rounded
    float, are not computed. *)
Definition ProgressBar_percent (self : ProgressBar) (iteration : Z) : Res unit :=
  if total self =? 0 then Raise ZeroDivisionError
  else if (0 <=? decimals self) && (decimals self <=? INT_MAX) then Ok tt
  else Raise ValueError.

(** [ProgressBar.update].  The object is passed in and its new state
    returned.  The printed line is kept as the call's [iteration] and the
    bar; the percentage is not part of the event, but an exception of its
    computation leaves the call before anything is printed. *)
Definition ProgressBar_update (self : ProgressBar) (iteration : Z)
  : Eff ProgressBar :=
  if finished self then ret self
  else
    lift (ProgressBar_percent self iteration) ;;
    emit (EvPrintBar iteration (ProgressBar_bar self iteration)) ;;
    if iteration =? total self then ProgressBar_finish self
    else ret self.

(** A sequence of [update] calls on one bar, each call on the state the
    one before left; a call that raises leaves the state as it was, the
    exception going to its caller. *)
Definition after_update (self : ProgressBar) (iteration : Z) : ProgressBar :=
  match result (ProgressBar_update self iteration) with
  | Ok self' => self'
  | Raise _ => self
  end.

Fixpoint update_calls (self : ProgressBar) (calls : list Z)
  : list Event * ProgressBar :=
  match calls with
  | [] => ([], self)
  | iteration :: rest =>
      let (evs, self') := update_calls (after_update self iteration) rest in
      (events (ProgressBar_update self iteration) ++ evs, self')
  end.

(** ** [data_url] and [url_to_filename] *)

Definition data_url (year month : Z) : str :=
  let year_str := str_of_int year in
  let month_str := format_02d month in
  DATA_URL ++ year_str ++ lit "-" ++ month_str ++ lit "/"
           ++ year_str ++ lit "-" ++ month_str ++ lit "f.html".

(** The two indexings raise [IndexError] on a last segment without a
    dash. *)
Definition url_to_filename (url : str) : Res str :=
  match split (lit "/") url with
  | Raise e => Raise e
  | Ok segs =>
  match index segs (-1) with
  | Raise e => Raise e
  | Ok seg =>
  match split (lit "-") seg with
  | Raise e => Raise e
  | Ok fields =>
  match index fields 0 with
  | Raise e => Raise e
  | Ok year_str =>
  match index fields 1 with
  | Raise e => Raise e
  | Ok field1 =>
      let month_str := replace (lit "f.html") [] field1 in
      Ok (lit "wggf-monthly-digest-" ++ year_str ++ lit "-" ++ month_str)
  end end end end end.

(** The last path segment of a URL, [url.split("/")[-1]]. *)
Definition last_segment (url : str) : str := last (split_go (lit "/") O url) [].

(** ** [is_empty] *)

(** The annotation says [body: str], the [try] is there for anything
    else: the values a caller could pass. *)
Inductive Value : Type :=
| VNone
| VInt (n : Z)
| VStr (s : str)
| VBytes (b : bytes)
| VList (items : list Value).

Definition MARKER : str := lit "existiert nicht".

(** [MARKER in body]: substring test on a [str], membership in a list;
    [bytes] does not take a [str] operand and the rest is not iterable. *)
Definition marker_in (body : Value) : Res bool :=
  match body with
  | VStr s => Ok (contains MARKER s)
  | VList items =>
      Ok (existsb (fun v => match v with
                            | VStr s => list_eqb s MARKER
                            | _ => false
                            end) items)
  | VBytes _ | VNone | VInt _ => Raise TypeError
  end.

(** [len(body)]. *)
Definition value_len (body : Value) : Res Z :=
  match body with
  | VStr s => Ok (len s)
  | VBytes b => Ok (len b)
  | VList items => Ok (len items)
  | VNone | VInt _ => Raise TypeError
  end.

(** The expression under [try]: [and] evaluates [len] only when the
    marker was found. *)
Definition is_empty_test (body : Value) : Res bool :=
  match marker_in body with
  | Raise e => Raise e
  | Ok false => Ok false
  | Ok true =>
      match value_len body with
      | Raise e => Raise e
      | Ok n => Ok (n <? 100)
      end
  end.

Definition is_empty (body : Value) : Eff bool :=
  try_except (lift (is_empty_test body))
             (fun e => emit (EvLog ERROR (EmptyCheckFailed e)) ;; ret false).

(** ** The network and the disk *)

(** An [aiohttp] response: status, final URL after redirects, and the
    payload, whose reading can fail. *)
Record Response : Type := mkResponse {
  status : Z;
  url : str;
  payload : Res bytes
}.

(** What the run meets outside the process: the answer to each GET (a
    response, or an exception of the client), the outcome of the login
    POST, whether the disk takes a given file, and the working
    directory. *)
Record World : Type := mkWorld {
  get : str -> Res Response;
  post : Res unit;
  disk_accepts : Path -> str -> bool;
  cwd : list str
}.

(** [response.text(encoding="utf-8", errors="ignore")]: read the payload,
    then decode it. *)
Definition Response_text (response : Response) : Res str :=
  match payload response with
  | Raise e => Raise e
  | Ok b => Utf8.decode Utf8.ignore b
  end.

(** ** [get_digest] *)

(** [options] is the module-level variable of the script; the result is
    [None] or the pair [(path, body)]. *)
Definition get_digest (w : World) (options : Options) (url0 : str)
  : Eff (option (Path * str)) :=
  emit (EvGet url0) ;;
  response <- lift (get w url0) ;;
  match Response_text response with
  | Raise e => emit (EvLog ERROR (DecodeFailed url0 e)) ;; ret None
  | Ok body =>
      empty <- is_empty (VStr body) ;;
      if (empty : bool) then
        emit (EvLog DEBUG (SkippingEmpty url0)) ;; ret None
      else if status response =? 200 then
        emit (EvLog DEBUG (FoundDigest url0)) ;;
        stem <- lift (url_to_filename (url response)) ;;
        let filename := stem ++ lit ".html" in
        let path := absolute (cwd w) (path_join (out_dir options) filename) in
        ret (Some (path, body))
      else
        emit (EvLog ERROR (FailedToScrape url0)) ;; ret None
  end.

(** ** [write_digest] *)

(** [open(file, "w")] and [f.write(body)] as one step that the disk takes
    or refuses. *)
Definition write_digest (w : World) (body : str) (file : Path) : Eff unit :=
  if disk_accepts w file body then
    emit (EvFileWrite file body) ;;
    emit (EvLog DEBUG (SavedDigest file))
  else throw OSError.

(** ** [fetch] *)

(** A task is a call of [get_digest] that runs beside the others.  It runs
    up to its GET when the loop first awaits, and the rest of it happens
    when its response arrives. *)
Definition Task : Type := Eff (option (Path * str)).

Definition task_start (t : Task) : list Event := firstn 1 (events t).
Definition task_finish (t : Task) : Task := (skipn 1 (events t), result t).

(** [asyncio.as_completed(tasks)]: the tasks in the order [order] in which
    they complete, given as positions in [tasks]. *)
Definition as_completed {A : Type} (tasks : list A) (order : list nat) : list A :=
  flat_map (fun i => match nth_error tasks i with
                     | Some t => [t]
                     | None => []
                     end) order.

(** [as_completed] schedules the coroutines as it iterates over [set(fs)]:
    they start in the iteration order of that set, which is not the order
    of the list.  [started] gives it as positions in [tasks]. *)
Definition scheduled {A : Type} (tasks : list A) (started : list nat) : list A :=
  flat_map (fun i => match nth_error tasks i with
                     | Some t => [t]
                     | None => []
                     end) started.

(** Events that happen without a result of their own. *)
Definition perform (evs : list Event) : Eff unit := (evs, Ok tt).

(** [if pb: pb.update(idx + 1)]. *)
Definition update_if (pb : option ProgressBar) (iteration : Z)
  : Eff (option ProgressBar) :=
  match pb with
  | Some p => p' <- ProgressBar_update p iteration ;; ret (Some p')
  | None => ret None
  end.

(** One turn of the [for] loop at position [idx]: the bar is updated, then
    the loop awaits.  [starting] holds what the scheduled tasks do when the
    loop first gives up control, their GETs.  [EvAwaited idx] marks the
    moment the [await] hands over the outcome of [task], a result or an
    exception; a result that is a pair is written. *)
Definition fetch_body (w : World) (pb : option ProgressBar) (idx : Z)
  (starting : list Event) (task : Task) : Eff (option ProgressBar) :=
  pb' <- update_if pb (idx + 1) ;;
  perform starting ;;
  perform (events (task_finish task)) ;;
  emit (EvAwaited idx) ;;
  r <- lift (result (task_finish task)) ;;
  match r with
  | Some (path, body) => write_digest w body path
  | None => ret tt
  end ;;
  ret pb'.

(** The [for] loop from position [idx] on. *)
Fixpoint fetch_loop (w : World) (pb : option ProgressBar) (idx : Z)
  (starting : list Event) (completed : list Task) : Eff unit :=
  match completed with
  | [] => ret tt
  | task :: rest =>
      pb' <- fetch_body w pb idx starting task ;;
      fetch_loop w pb' (idx + 1) [] rest
  end.

(** [fetch(urls, options, pb)], with the order in which the tasks start
    and the order in which they complete.  Leaving the [async with] block
    closes the session, also when an exception leaves it. *)
Definition fetch (w : World) (started order : list nat)
  (urls : list str) (options : Options) (pb : option ProgressBar) : Eff unit :=
  emit EvSessionOpen ;;
  finally
    (emit (EvPost AUTH_URL (username options) (password options)) ;;
     lift (post w) ;;
     let tasks := map (get_digest w options) urls in
     fetch_loop w pb 0 (flat_map task_start (scheduled tasks started))
       (as_completed tasks order))
    [EvSessionClose].

(** ** The main block *)

(** [range(a, b)]. *)
Definition range (a b : Z) : list Z :=
  map (fun i => a + Z.of_nat i) (seq 0 (Z.to_nat (b - a))).

(** The candidate URLs of a run started in the year [now_year]. *)
Definition all_urls (now_year : Z) : list str :=
  flat_map (fun year => map (fun month => data_url year month) (range 1 13))
           (range 2000 (now_year + 1)).

(** The bar of a run: none when verbose. *)
Definition progress (options : Options) (urls : list str) : option ProgressBar :=
  if verbose options then None
  else Some (ProgressBar_init (len urls) (lit "Progress:") (lit "Complete") 50).

Definition main (w : World) (started order : list nat) (now_year : Z)
  (options : Options) : Eff unit :=
  let urls := all_urls now_year in
  emit (EvLog DEBUG (ScrapingFrom (len urls))) ;;
  fetch w started order urls options (progress options urls) ;;
  emit (EvLog INFO (FilesSavedTo (absolute (cwd w) (out_dir options)))) ;;
  emit (EvLog INFO Completed).

(* ===================================================================== *)
(** * Reading a run *)
(* ===================================================================== *)

(** The iterations the bar was printed for, in order. *)
Definition printed (evs : list Event) : list Z :=
  flat_map (fun ev => match ev with EvPrintBar it _ => [it] | _ => [] end) evs.

(** How often the bar was printed for [total], the full bar. *)
Definition full_bars (total : Z) (evs : list Event) : nat :=
  count_occ Z.eq_dec (printed evs) total.

(** A bar that is finished, or whose percentage cannot be computed: it
    prints nothing and stays as it is. *)
Definition inert (self : ProgressBar) : Prop :=
  finished self = true
  \/ exists e, forall iteration, ProgressBar_percent self iteration = Raise e.

(** A bar whose [update] does not raise. *)
Definition sound_bar (pb : option ProgressBar) : Prop :=
  match pb with
  | Some p => finished p = true
              \/ forall iteration, ProgressBar_percent p iteration = Ok tt
  | None => True
  end.

(** The limits of the machine that [update] can meet and the model leaves
    out: [float(self.total)] raises [OverflowError] from [2**1024 - 2**970]
    on, and a repeated string cannot be longer than an index of the
    machine goes, [2**31 - 1] on the smallest.  A bar within them. *)
Definition within_limits (self : ProgressBar) : Prop :=
  Z.abs (total self) < 2 ^ 1024 - 2 ^ 970
  /\ Z.max 1 (len (fill self)) * length self <= 2 ^ 31 - 1.

(** What a task does on its own: its GET and its log records. *)
Definition task_event (ev : Event) : Prop :=
  match ev with
  | EvGet _ | EvLog _ _ => True
  | _ => False
  end.

(** The files written, in order. *)
Definition written (evs : list Event) : list (Path * str) :=
  flat_map (fun ev => match ev with EvFileWrite f c => [(f, c)] | _ => [] end) evs.

(** The positions whose outcome the loop received, in order. *)
Definition awaited (evs : list Event) : list Z :=
  flat_map (fun ev => match ev with EvAwaited i => [i] | _ => [] end) evs.

(** The positions [idx], [idx + 1], ... of [n] turns of the loop. *)
Definition positions (idx : Z) (n : nat) : list Z :=
  map (fun k => idx + Z.of_nat k) (seq 0 n).

(** The URLs requested, in order. *)
Definition requested (evs : list Event) : list str :=
  flat_map (fun ev => match ev with EvGet u => [u] | _ => [] end) evs.

(** What a watcher of the bar and of the loop sees: the bar shown for a
    position, an outcome received at a position. *)
Inductive Mark : Type :=
| Shown (iteration : Z)
| Received (idx : Z).

Definition marks (evs : list Event) : list Mark :=
  flat_map (fun ev => match ev with
                      | EvPrintBar it _ => [Shown it]
                      | EvAwaited i => [Received i]
                      | _ => []
                      end) evs.

(** Whether a bar was handed to [fetch]. *)
Definition has_bar (pb : option ProgressBar) : bool :=
  match pb with Some _ => true | None => false end.

(** Log records at level [INFO]. *)
Definition info_event (ev : Event) : Prop :=
  match ev with
  | EvLog INFO _ => True
  | _ => False
  end.

(** [sep.join(pieces)]. *)
Fixpoint join (sep : str) (pieces : list str) : str :=
  match pieces with
  | [] => []
  | [p] => p
  | p :: rest => p ++ sep ++ join sep rest
  end.

(** The pairs among the results of [tasks], in order. *)
Definition successes (tasks : list Task) : list (Path * str) :=
  flat_map (fun t => match result t with Ok (Some pc) => [pc] | _ => [] end) tasks.

(** Events of the session itself: opening it, the login, closing it. *)
Definition session_event (ev : Event) : Prop :=
  match ev with
  | EvSessionOpen | EvPost _ _ _ | EvSessionClose => True
  | _ => False
  end.

(** A file right under the output directory with a digest's name. *)
Definition well_placed (w : World) (options : Options) (file : Path) : Prop :=
  parent file = absolute (cwd w) (out_dir options)
  /\ startswith (lit "wggf-monthly-digest-") (name file) = true
  /\ endswith (lit ".html") (name file) = true.

(* ===================================================================== *)
(** * Sample inputs *)
(* ===================================================================== *)

(** Small worlds and responses on which the statements below are run. *)
Module Sample.

Definition options : Options :=
  mkOptions (lit "member") (lit "secret") (path_of_str (lit "archive")) false.

Definition home : list str := [lit "home"; lit "user"].

(** A page delivered with status 200 under the URL [final]. *)
Definition page (final : str) (content : bytes) : Response :=
  mkResponse 200 final (Ok content).

(** A world that answers every GET with [answer] and takes every file. *)
Definition world (answer : str -> Res Response) : World :=
  mkWorld answer (Ok tt) (fun _ _ => true) home.

(** The archive answers under the requested URL. *)
Definition archive : World :=
  world (fun u => Ok (page u (lit "<html>digest</html>"))).

(** Every request is redirected to the digest of June 2024. *)
Definition redirect : World :=
  world (fun _ => Ok (page (data_url 2024 6) (lit "<html>digest</html>"))).

(** The archive again, on a disk that refuses the file of June 2024 and
    takes every other. *)
Definition june_locked : World :=
  mkWorld (get archive) (Ok tt)
    (fun file _ =>
       negb (list_eqb (name file) (lit "wggf-monthly-digest-2024-06.html")))
    home.

Definition two_urls : list str := [data_url 2024 6; data_url 2024 7].

(** The archive again, with a connection that breaks on the request for
    July 2024. *)
Definition flaky : World :=
  world (fun u => if list_eqb u (data_url 2024 7) then Raise ClientError
                  else get archive u).

(** Every request ends on the login page. *)
Definition login_wall : World :=
  world (fun _ => Ok (page AUTH_URL (lit "<html>login</html>"))).

End Sample.

(* ===================================================================== *)
(** * Facts about the string operations *)
(* ===================================================================== *)

Section StringFacts.

Lemma startswith_cons (a c : Z) (p s : str) :
  startswith (a :: p) (c :: s) = (a =? c) && startswith p s.
Proof. reflexivity. Qed.

Lemma startswith_app (p s : str) : startswith p (p ++ s) = true.
Proof.
  induction p as [|a p IH]; simpl; [reflexivity|].
  rewrite Z.eqb_refl, IH. reflexivity.
Qed.

Lemma startswith_spec (p s : str) :
  startswith p s = true <-> exists t, s = p ++ t.
Proof.
  split.
  - revert s. induction p as [|a p IH]; intros s H.
    + exists s. reflexivity.
    + destruct s as [|b s]; simpl in H; [discriminate|].
      apply andb_true_iff in H. destruct H as [Hab Hps].
      apply Z.eqb_eq in Hab. subst b.
      destruct (IH _ Hps) as [t ->]. exists t. reflexivity.
  - intros [t ->]. apply startswith_app.
Qed.

Lemma contains_spec (p s : str) :
  contains p s = true <-> exists a b, s = a ++ p ++ b.
Proof.
  split.
  - induction s as [|c s IH]; simpl; intros H.
    + rewrite orb_false_r in H. apply startswith_spec in H.
      destruct H as [t Ht]. exists [], t. exact Ht.
    + apply orb_true_iff in H. destruct H as [H|H].
      * apply startswith_spec in H. destruct H as [t Ht].
        exists [], t. exact Ht.
      * destruct (IH H) as (a & b & ->). exists (c :: a), b. reflexivity.
  - intros (a & b & ->). induction a as [|c a IH]; simpl.
    + pose proof (startswith_app p b) as Hp.
      destruct (p ++ b); simpl; rewrite Hp; reflexivity.
    + rewrite IH. apply orb_true_r.
Qed.

Lemma len_app {A : Type} (a b : list A) : len (a ++ b) = len a + len b.
Proof. unfold len. rewrite length_app. lia. Qed.

Lemma len_nonneg {A : Type} (a : list A) : 0 <= len a.
Proof. unfold len. lia. Qed.

(** *** Splitting at a single character *)

Lemma split_go_nonempty (sep : str) (k : nat) (s : str) :
  split_go sep k s <> [].
Proof.
  revert k. induction s as [|c s IH]; intros k; simpl; [discriminate|].
  destruct k; [|apply IH].
  destruct (startswith sep (c :: s)); [discriminate|].
  destruct (split_go sep 0 s); discriminate.
Qed.

Lemma split_go_char_cons (c x : Z) (s : str) :
  split_go [c] O (x :: s) =
  if c =? x then [] :: split_go [c] O s
  else match split_go [c] O s with
       | h :: t => (x :: h) :: t
       | [] => [[x]]
       end.
Proof. simpl. rewrite andb_true_r. reflexivity. Qed.

(** A string without the separator is one piece. *)
Lemma split_go_char_absent (c : Z) (s : str) :
  ~ In c s -> split_go [c] O s = [s].
Proof.
  induction s as [|x s IH]; intros H; [reflexivity|].
  rewrite split_go_char_cons.
  destruct (Z.eqb_spec c x) as [->|Hne].
  - exfalso. apply H. left. reflexivity.
  - rewrite IH; [reflexivity|]. intro Hin. apply H. right. exact Hin.
Qed.

(** The first piece ends at the first separator. *)
Lemma split_go_char_first (c : Z) (a s : str) :
  ~ In c a -> split_go [c] O (a ++ c :: s) = a :: split_go [c] O s.
Proof.
  induction a as [|x a IH]; intros H.
  - simpl app. rewrite split_go_char_cons, Z.eqb_refl. reflexivity.
  - simpl app. rewrite split_go_char_cons.
    destruct (Z.eqb_spec c x) as [->|Hne].
    + exfalso. apply H. left. reflexivity.
    + rewrite IH; [reflexivity|]. intro Hin. apply H. right. exact Hin.
Qed.

(** A string with a separator falls into two pieces at least. *)
Lemma split_go_char_two (c : Z) (a s : str) :
  exists h1 h2 t, split_go [c] O (a ++ c :: s) = h1 :: h2 :: t.
Proof.
  pose proof (split_go_nonempty [c] O s) as Hs.
  induction a as [|x a IH]; simpl app; rewrite split_go_char_cons.
  - rewrite Z.eqb_refl. destruct (split_go [c] O s) as [|h t]; [contradiction|].
    exists [], h, t. reflexivity.
  - destruct IH as (h1 & h2 & t & ->).
    destruct (c =? x); eauto.
Qed.

(** The last piece is what follows the last separator. *)
Lemma split_go_char_last (c : Z) (a s d : str) :
  last (split_go [c] O (a ++ c :: s)) d = last (split_go [c] O s) d.
Proof.
  induction a as [|x a IH].
  - simpl app. rewrite split_go_char_cons, Z.eqb_refl.
    pose proof (split_go_nonempty [c] O s) as Hne.
    destruct (split_go [c] O s); [contradiction|reflexivity].
  - simpl app. rewrite split_go_char_cons.
    pose proof (split_go_nonempty [c] O (a ++ c :: s)) as Hne.
    destruct (Z.eqb_spec c x) as [->|Hcx].
    + destruct (split_go [x] O (a ++ x :: s)) eqn:E; [contradiction|].
      exact IH.
    + destruct (split_go_char_two c a s) as (h1 & h2 & t & E).
      rewrite E in *. rewrite <- IH. reflexivity.
Qed.

(** No piece holds the separator character. *)
Lemma split_go_char_free (c : Z) (s : str) :
  Forall (fun piece => ~ In c piece) (split_go [c] O s).
Proof.
  induction s as [|x s IH]; [apply Forall_cons; [intros []|apply Forall_nil]|].
  rewrite split_go_char_cons.
  destruct (Z.eqb_spec c x) as [->|Hcx].
  - constructor; [intros []|exact IH].
  - pose proof (split_go_nonempty [c] O s) as Hne.
    destruct (split_go [c] O s) as [|h t]; [contradiction|].
    inversion IH as [|? ? Hh Ht]; subst.
    constructor; [|exact Ht].
    intros [Hx|Hin]; [congruence|exact (Hh Hin)].
Qed.

(** Every piece is made of characters of the input, for any separator. *)
Lemma split_go_incl (sep : str) (k : nat) (s : str) :
  Forall (fun piece => incl piece s) (split_go sep k s).
Proof.
  revert k. induction s as [|x s IH]; intros k; simpl.
  - apply Forall_cons; [intros ? []|apply Forall_nil].
  - assert (Hup : forall l, Forall (fun piece => incl piece s) l ->
                            Forall (fun piece => incl piece (x :: s)) l).
    { intros l Hl. eapply Forall_impl; [|exact Hl].
      intros piece Hp. apply incl_tl. exact Hp. }
    destruct k; [|apply Hup, IH].
    destruct (startswith sep (x :: s)).
    + constructor; [intros ? []|apply Hup, IH].
    + specialize (IH O).
      destruct (split_go sep 0 s) as [|h t].
      * apply Forall_cons; [|apply Forall_nil].
        intros y [<-|[]]. left. reflexivity.
      * inversion IH; subst. constructor; [|apply Hup; assumption].
        intros y [<-|Hy]; [left; reflexivity|right; auto].
Qed.

(** Replacing by the empty string only removes characters. *)
Lemma replace_go_nil_incl (old : str) (k : nat) (s : str) :
  incl (replace_go old [] k s) s.
Proof.
  revert k. induction s as [|x s IH]; intros k; simpl.
  - intros ? [].
  - destruct k; [|apply incl_tl, IH].
    destruct (startswith old (x :: s)).
    + simpl. apply incl_tl, IH.
    + intros y [<-|Hy]; [left; reflexivity|right; exact (IH _ _ Hy)].
Qed.

(** A character other than the first of [old] is copied. *)
Lemma replace_go_other (a : Z) (old new : str) (c : Z) (s : str) :
  a <> c ->
  replace_go (a :: old) new O (c :: s) = c :: replace_go (a :: old) new O s.
Proof.
  intros Hac. simpl. destruct (Z.eqb_spec a c); [contradiction|reflexivity].
Qed.

Lemma index_last {A : Type} (l : list A) (d : A) :
  l <> [] -> index l (-1) = Ok (last l d).
Proof.
  intros Hne. unfold index.
  change (-1 <? 0) with true. cbv iota zeta.
  destruct (exists_last Hne) as (l' & x & ->).
  unfold len. rewrite length_app. simpl List.length.
  destruct (Z.ltb_spec (-1 + Z.of_nat (List.length l' + 1)) 0) as [Hlt|Hge]; [lia|].
  replace (Z.to_nat (-1 + Z.of_nat (List.length l' + 1)))
    with (List.length l') by lia.
  rewrite nth_error_app2, Nat.sub_diag by lia. simpl.
  rewrite last_last. reflexivity.
Qed.

(** *** Decimal digits *)

Lemma lit_app (a b : string) : lit (a ++ b) = lit a ++ lit b.
Proof.
  unfold lit. induction a as [|x a IH]; simpl; [reflexivity|].
  f_equal. exact IH.
Qed.

Lemma string_of_uint_digits (u : Decimal.uint) :
  Forall is_digit (lit (NilEmpty.string_of_uint u)).
Proof.
  induction u; simpl; constructor; try assumption; unfold is_digit; simpl; lia.
Qed.

(** [str(n)] of a non-negative [n] is made of digits only. *)
Lemma str_of_int_digits (n : Z) :
  0 <= n -> Forall is_digit (str_of_int n).
Proof.
  intros Hn. destruct n as [|p|p]; [| |lia].
  - exact (string_of_uint_digits (Decimal.D0 Decimal.Nil)).
  - exact (string_of_uint_digits (Pos.to_uint p)).
Qed.

Lemma digits_exclude (c : Z) (s : str) :
  Forall is_digit s -> ~ is_digit c -> ~ In c s.
Proof.
  intros Hs Hc Hin. rewrite Forall_forall in Hs. exact (Hc (Hs _ Hin)).
Qed.

End StringFacts.

(* ===================================================================== *)
(** * [data_url] and [url_to_filename] *)
(* ===================================================================== *)

Section Filenames.

Lemma index_In {A : Type} (l : list A) (i : Z) (x : A) :
  index l i = Ok x -> In x l.
Proof.
  unfold index. destruct (_ <? 0); [discriminate|].
  destruct (nth_error l _) eqn:E; [|discriminate].
  intros [= <-]. eapply nth_error_In. exact E.
Qed.

(** Months 1 to 12 are formatted as two digits. *)
Lemma format_02d_month (M : Z) :
  1 <= M <= 12 ->
  exists d1 d2, format_02d M = [d1; d2] /\ is_digit d1 /\ is_digit d2.
Proof.
  intros H.
  assert (HM : M = 1 \/ M = 2 \/ M = 3 \/ M = 4 \/ M = 5 \/ M = 6 \/ M = 7
               \/ M = 8 \/ M = 9 \/ M = 10 \/ M = 11 \/ M = 12) by lia.
  unfold is_digit.
  repeat (destruct HM as [->|HM]); [..|subst M];
    eexists _, _; (split; [vm_compute; reflexivity|]); lia.
Qed.

(** The field after the dash, for a two-digit month: the suffix is cut
    off and the digits stay. *)
Lemma month_field (d1 d2 : Z) :
  is_digit d1 -> is_digit d2 ->
  split_go (lit "-") O ([d1; d2] ++ lit "f.html") = [[d1; d2] ++ lit "f.html"]
  /\ replace (lit "f.html") [] ([d1; d2] ++ lit "f.html") = [d1; d2].
Proof.
  unfold is_digit. intros H1 H2. split.
  - apply (split_go_char_absent 45). simpl. lia.
  - unfold replace. change (lit "f.html") with [102; 46; 104; 116; 109; 108].
    change ([d1; d2] ++ [102; 46; 104; 116; 109; 108])
      with (d1 :: d2 :: [102; 46; 104; 116; 109; 108]).
    rewrite 2 replace_go_other by lia. reflexivity.
Qed.

(** What [url_to_filename] makes of a URL whose last segment is
    [year-field]. *)
Lemma url_to_filename_segment (a y field : str) :
  ~ In 47 y -> ~ In 45 y -> ~ In 47 field -> ~ In 45 field ->
  url_to_filename (a ++ lit "/" ++ y ++ lit "-" ++ field) =
  Ok (lit "wggf-monthly-digest-" ++ y ++ lit "-"
        ++ replace (lit "f.html") [] field).
Proof.
  intros Hy47 Hy45 Hf47 Hf45. unfold url_to_filename, split.
  change (lit "/") with [47]. change (lit "-") with [45]. cbv iota.
  change ([47] ++ y ++ [45] ++ field) with (47 :: (y ++ 45 :: field)).
  rewrite (index_last _ ([] : str)) by apply split_go_nonempty.
  rewrite split_go_char_last.
  rewrite (split_go_char_absent 47 (y ++ 45 :: field)).
  2:{ intros Hin. apply in_app_or in Hin.
      destruct Hin as [Hin|[Hin|Hin]]; [tauto|discriminate|tauto]. }
  cbn [last]. rewrite (split_go_char_first 45) by assumption.
  rewrite (split_go_char_absent 45 field) by assumption.
  reflexivity.
Qed.

Lemma data_url_shape (Y M : Z) :
  data_url Y M =
  (DATA_URL ++ str_of_int Y ++ lit "-" ++ format_02d M)
    ++ lit "/" ++ str_of_int Y ++ lit "-" ++ (format_02d M ++ lit "f.html").
Proof. unfold data_url. repeat rewrite <- app_assoc. reflexivity. Qed.

(** The stem that [url_to_filename] gives for an enumerated URL. *)
Lemma url_to_filename_data_url (Y M : Z) :
  0 <= Y -> 1 <= M <= 12 ->
  url_to_filename (data_url Y M) =
  Ok (lit "wggf-monthly-digest-" ++ str_of_int Y ++ lit "-" ++ format_02d M).
Proof.
  intros HY HM. rewrite data_url_shape.
  destruct (format_02d_month M HM) as (d1 & d2 & -> & Hd1 & Hd2).
  pose proof (str_of_int_digits Y HY) as Hdig.
  assert (H47 : ~ In 47 (str_of_int Y))
    by (apply (digits_exclude _ _ Hdig); unfold is_digit; lia).
  assert (H45 : ~ In 45 (str_of_int Y))
    by (apply (digits_exclude _ _ Hdig); unfold is_digit; lia).
  unfold is_digit in Hd1, Hd2.
  rewrite url_to_filename_segment; try assumption.
  - destruct (month_field d1 d2 Hd1 Hd2) as [_ ->]. reflexivity.
  - simpl. lia.
  - simpl. lia.
Qed.

(** Whatever the URL, an accepted one gives the fixed prefix, then two
    fields without a slash. *)
Lemma url_to_filename_form (u stem : str) :
  url_to_filename u = Ok stem ->
  exists y m, stem = lit "wggf-monthly-digest-" ++ y ++ lit "-" ++ m
              /\ ~ In 47 y /\ ~ In 47 m.
Proof.
  unfold url_to_filename, split. change (lit "/") with [47].
  change (lit "-") with [45]. cbv iota.
  destruct (index (split_go [47] 0 u) (-1)) as [seg|] eqn:Eseg; [|discriminate].
  destruct (index (split_go [45] 0 seg) 0) as [y|] eqn:Ey; [|discriminate].
  destruct (index (split_go [45] 0 seg) 1) as [f|] eqn:Ef; [|discriminate].
  intros [= <-]. exists y, (replace (lit "f.html") [] f).
  split; [reflexivity|].
  assert (Hseg : ~ In 47 seg).
  { pose proof (split_go_char_free 47 u) as Hfree.
    rewrite Forall_forall in Hfree. apply Hfree. eapply index_In; eauto. }
  pose proof (split_go_incl [45] O seg) as Hincl.
  rewrite Forall_forall in Hincl.
  split.
  - intros Hin. apply Hseg.
    eapply Hincl; [eapply index_In; exact Ey|exact Hin].
  - intros Hin. apply Hseg.
    eapply Hincl; [eapply index_In; exact Ef|].
    eapply (replace_go_nil_incl (lit "f.html") O f). exact Hin.
Qed.

(** [url_to_filename] accepts exactly the URLs whose last segment has a
    dash. *)
Lemma url_to_filename_accepts (u : str) :
  (exists stem, url_to_filename u = Ok stem) <-> In 45 (last_segment u).
Proof.
  unfold url_to_filename, split, last_segment. change (lit "/") with [47].
  change (lit "-") with [45]. cbv iota.
  rewrite (index_last _ ([] : str)) by apply split_go_nonempty.
  set (seg := last (split_go [47] 0 u) []).
  split.
  - intros [stem H].
    destruct (in_dec Z.eq_dec 45 seg) as [Hin|Hnin]; [exact Hin|].
    rewrite (split_go_char_absent 45 seg Hnin) in H. discriminate H.
  - intros Hin. apply in_split in Hin. destruct Hin as (a & b & ->).
    destruct (split_go_char_two 45 a b) as (h1 & h2 & t & ->).
    eexists. reflexivity.
Qed.

End Filenames.

(* ===================================================================== *)
(** * [is_empty] and [get_digest] *)
(* ===================================================================== *)

Section Digest.

(** On a [str] the test is evaluated without an exception. *)
Lemma is_empty_str (body : str) :
  is_empty (VStr body) = ([], Ok (contains MARKER body && (len body <? 100))).
Proof.
  unfold is_empty, is_empty_test. simpl.
  destruct (contains MARKER body); reflexivity.
Qed.

(** [get_digest], branch by branch. *)
Lemma get_digest_unfold (w : World) (options : Options) (url0 : str) :
  get_digest w options url0 =
  match get w url0 with
  | Raise e => ([EvGet url0], Raise e)
  | Ok response =>
      match Response_text response with
      | Raise e => ([EvGet url0; EvLog ERROR (DecodeFailed url0 e)], Ok None)
      | Ok body =>
          if contains MARKER body && (len body <? 100)
          then ([EvGet url0; EvLog DEBUG (SkippingEmpty url0)], Ok None)
          else if status response =? 200 then
            match url_to_filename (url response) with
            | Ok stem =>
                ([EvGet url0; EvLog DEBUG (FoundDigest url0)],
                 Ok (Some (absolute (cwd w)
                             (path_join (out_dir options) (stem ++ lit ".html")),
                           body)))
            | Raise e => ([EvGet url0; EvLog DEBUG (FoundDigest url0)], Raise e)
            end
          else ([EvGet url0; EvLog ERROR (FailedToScrape url0)], Ok None)
      end
  end.
Proof.
  unfold get_digest. destruct (get w url0) as [response|e]; [|reflexivity].
  simpl. destruct (Response_text response) as [body|e]; [|reflexivity].
  rewrite is_empty_str. simpl.
  destruct (contains MARKER body && (len body <? 100)); [reflexivity|].
  destruct (status response =? 200); [|reflexivity].
  simpl. destruct (url_to_filename (url response)); reflexivity.
Qed.

(** A task does nothing but its GET and its log records. *)
Lemma get_digest_events (w : World) (options : Options) (url0 : str) :
  exists logs,
    events (get_digest w options url0) = EvGet url0 :: logs
    /\ Forall (fun ev => exists lvl m, ev = EvLog lvl m) logs.
Proof.
  rewrite get_digest_unfold.
  destruct (get w url0) as [response|e].
  2:{ exists []. split; [reflexivity|constructor]. }
  destruct (Response_text response) as [body|e].
  2:{ eexists. split; [reflexivity|]. repeat constructor. eauto. }
  destruct (contains MARKER body && (len body <? 100)).
  { eexists. split; [reflexivity|]. repeat constructor. eauto. }
  destruct (status response =? 200).
  2:{ eexists. split; [reflexivity|]. repeat constructor. eauto. }
  destruct (url_to_filename (url response));
    (eexists; split; [reflexivity|]; repeat constructor; eauto).
Qed.

(** *** The destination path *)

Lemma components_single (s : str) :
  ~ In 47 s -> s <> [] -> s <> lit "." -> components s = [s].
Proof.
  intros H47 Hne Hdot. unfold components. change (lit "/") with [47].
  rewrite split_go_char_absent by assumption. simpl.
  unfold list_eqb.
  destruct (list_eq_dec Z.eq_dec s []); [contradiction|].
  destruct (list_eq_dec Z.eq_dec s (lit ".")); [contradiction|].
  reflexivity.
Qed.

(** Joining a single component puts it right under the directory. *)
Lemma path_join_single (p : Path) (s : str) :
  ~ In 47 s -> s <> [] -> s <> lit "." ->
  path_join p s = mkPath (anchored p) (parts p ++ [s]).
Proof.
  intros H47 Hne Hdot. unfold path_join, path_of_str.
  cbn [anchored parts]. rewrite components_single by assumption.
  destruct s as [|c s]; [contradiction|].
  change (lit "/") with [47]. rewrite startswith_cons.
  destruct (Z.eqb_spec 47 c) as [<-|_]; [|reflexivity].
  exfalso. apply H47. left. reflexivity.
Qed.

Lemma absolute_under (cwd0 : list str) (p : Path) (s : str) :
  absolute cwd0 (mkPath (anchored p) (parts p ++ [s])) =
  mkPath true (parts (absolute cwd0 p) ++ [s]).
Proof.
  unfold absolute. cbn [anchored parts].
  destruct p as [[|] ps]; cbn [anchored parts].
  - reflexivity.
  - rewrite app_assoc. reflexivity.
Qed.

Lemma absolute_anchored (cwd0 : list str) (p : Path) :
  absolute cwd0 p = mkPath true (parts (absolute cwd0 p)).
Proof. unfold absolute. destruct p as [[|] ps]; reflexivity. Qed.

(** The file of an accepted URL: its directory is the output directory,
    its name the stem with the extension. *)
Lemma destination_path (cwd0 : list str) (dir : Path) (u stem : str) :
  url_to_filename u = Ok stem ->
  let path := absolute cwd0 (path_join dir (stem ++ lit ".html")) in
  parent path = absolute cwd0 dir /\ name path = stem ++ lit ".html".
Proof.
  intros Hstem. destruct (url_to_filename_form u stem Hstem)
    as (y & m & -> & Hy & Hm).
  set (file := (lit "wggf-monthly-digest-" ++ y ++ lit "-" ++ m) ++ lit ".html").
  assert (H47 : ~ In 47 file).
  { unfold file. intros Hin. repeat (apply in_app_or in Hin; destruct Hin as [Hin|Hin]);
      try tauto; vm_compute in Hin; repeat (destruct Hin as [Hin|Hin]; try discriminate Hin);
      try contradiction. }
  assert (Hne : file <> []) by (unfold file; discriminate).
  assert (Hdot : file <> lit ".") by (unfold file; discriminate).
  cbv zeta. rewrite path_join_single by assumption.
  rewrite absolute_under. unfold parent, name. cbn [anchored parts].
  rewrite removelast_last, last_last.
  split; [symmetry; apply absolute_anchored|reflexivity].
Qed.

End Digest.

(* ===================================================================== *)
(** * The claims about the pure functions *)
(* ===================================================================== *)

(** C2 as stated does not hold: [url_to_filename] returns the stem, and
    the extension is not part of it.  For June 2024 the result is not
    [wggf-monthly-digest-2024-06.html]. *)
Lemma url_to_filename_has_no_extension :
  2000 <= 2024 <= 2026 /\ 1 <= 6 <= 12 /\
  url_to_filename (data_url 2024 6) <> Ok (lit "wggf-monthly-digest-2024-06.html").
Proof. repeat split; try lia. vm_compute. discriminate. Qed.

(** C2, amended: for every year from 2000 to the current one and every
    month from 1 to 12, [url_to_filename] maps the enumerated URL to
    [wggf-monthly-digest-Y-MM] with the month on two digits, and a page
    fetched under that URL is given the file name
    [wggf-monthly-digest-Y-MM.html] by [get_digest], which adds the
    extension. *)
Theorem url_to_filename_inverts_data_url (currentYear Y M : Z) :
  2000 <= Y <= currentYear -> 1 <= M <= 12 ->
  let stem := lit "wggf-monthly-digest-" ++ str_of_int Y ++ lit "-" ++ format_02d M in
  url_to_filename (data_url Y M) = Ok stem
  /\ len (format_02d M) = 2
  /\ forall (w : World) (options : Options) (url0 : str) (response : Response)
            (body : str),
       get w url0 = Ok response ->
       url response = data_url Y M ->
       status response = 200 ->
       Response_text response = Ok body ->
       result (is_empty (VStr body)) = Ok false ->
       exists path,
         result (get_digest w options url0) = Ok (Some (path, body))
         /\ name path = stem ++ lit ".html".
Proof.
  intros HY HM stem.
  assert (Hstem : url_to_filename (data_url Y M) = Ok stem)
    by (apply url_to_filename_data_url; lia).
  split; [exact Hstem|]. split.
  - destruct (format_02d_month M HM) as (d1 & d2 & -> & _). reflexivity.
  - intros w options url0 response body Hget Hurl Hstatus Htext Hempty.
    rewrite is_empty_str in Hempty. simpl in Hempty. injection Hempty as Hempty.
    rewrite get_digest_unfold, Hget, Htext, Hempty, Hstatus, Hurl, Hstem.
    simpl. eexists. split; [reflexivity|].
    apply (destination_path _ _ _ _ Hstem).
Qed.

Lemma url_to_filename_inverts_data_url_witness :
  url_to_filename (data_url 2024 6) = Ok (lit "wggf-monthly-digest-2024-06")
  /\ len (format_02d 6) = 2.
Proof.
  pose proof (url_to_filename_inverts_data_url 2026 2024 6
                ltac:(lia) ltac:(lia)) as H.
  cbv zeta in H. destruct H as (H1 & H2 & _).
  split; [exact H1|exact H2].
Defined.

(** C3: on every string, [is_empty] returns without an exception and
    without a log record, and it returns true exactly when the marker
    occurs in the body and the body is shorter than 100 characters; a body
    of 100 characters or more is never empty, marker or not. *)
Theorem is_empty_iff_marker_and_short (body : str) :
  exists b : bool,
    is_empty (VStr body) = ([], Ok b)
    /\ (b = true <->
        (exists before after, body = before ++ MARKER ++ after) /\ len body < 100)
    /\ (100 <= len body -> b = false).
Proof.
  exists (contains MARKER body && (len body <? 100)).
  split; [apply is_empty_str|]. split.
  - rewrite andb_true_iff, contains_spec, Z.ltb_lt. reflexivity.
  - intros Hlen. apply andb_false_iff. right. apply Z.ltb_ge. exact Hlen.
Qed.

(** C9: [is_empty] fails open.  Whenever evaluating the test raises,
    [is_empty] logs the failure as an error and returns false; it never
    raises itself, and it returns true only when the test was evaluated
    to true. *)
Theorem is_empty_fails_open (body : Value) :
  (forall e, is_empty_test body = Raise e ->
     is_empty body = ([EvLog ERROR (EmptyCheckFailed e)], Ok false))
  /\ exists b : bool,
       result (is_empty body) = Ok b
       /\ (b = true -> is_empty_test body = Ok true
                       /\ events (is_empty body) = []).
Proof.
  unfold is_empty. destruct (is_empty_test body) as [b|e0] eqn:E.
  - split; [intros e He; discriminate He|].
    exists b. split; [reflexivity|]. intros ->. split; reflexivity.
  - split.
    + intros e He. injection He as <-. reflexivity.
    + exists false. split; [reflexivity|]. intros H. discriminate H.
Qed.

Lemma is_empty_fails_open_witness :
  is_empty_test VNone = Raise TypeError
  /\ is_empty_test (VInt 7) = Raise TypeError
  /\ is_empty_test (VBytes (lit "existiert nicht")) = Raise TypeError
  /\ is_empty VNone = ([EvLog ERROR (EmptyCheckFailed TypeError)], Ok false).
Proof.
  split; [reflexivity|]. split; [reflexivity|]. split; [reflexivity|].
  apply (proj1 (is_empty_fails_open VNone) TypeError). reflexivity.
Defined.

(** C6 as stated does not hold: a page delivered with status 200 and a
    body that is not empty, under a final URL whose last segment has no
    dash, makes [get_digest] raise [IndexError] instead of returning a
    pair. *)
Lemma get_digest_raises_behind_login_wall :
  let w := Sample.login_wall in
  let url0 := data_url 2024 6 in
  exists response body,
    get w url0 = Ok response
    /\ status response = 200
    /\ Response_text response = Ok body
    /\ result (is_empty (VStr body)) = Ok false
    /\ result (get_digest w Sample.options url0) = Raise IndexError.
Proof.
  cbv zeta. eexists _, _.
  split; [reflexivity|]. split; [reflexivity|].
  split; [vm_compute; reflexivity|].
  split; vm_compute; reflexivity.
Qed.

(** C6, amended: for every fetch with status 200, a body classified as not
    empty and a final URL whose last path segment contains a dash,
    [get_digest] returns the pair of the path and the body, the file name
    being the one [url_to_filename] derives from the final URL of the
    response; the requested URL has no part in it. *)
Theorem get_digest_names_file_after_final_url
  (w : World) (options : Options) (url0 : str) (response : Response) (body : str) :
  get w url0 = Ok response ->
  status response = 200 ->
  Response_text response = Ok body ->
  result (is_empty (VStr body)) = Ok false ->
  In 45 (last_segment (url response)) ->
  exists stem,
    url_to_filename (url response) = Ok stem
    /\ result (get_digest w options url0) =
       Ok (Some (absolute (cwd w)
                   (path_join (out_dir options) (stem ++ lit ".html")), body))
    /\ forall url1, get w url1 = Ok response ->
         result (get_digest w options url1) = result (get_digest w options url0).
Proof.
  intros Hget Hstatus Htext Hempty Hdash.
  apply url_to_filename_accepts in Hdash. destruct Hdash as [stem Hstem].
  rewrite is_empty_str in Hempty. simpl in Hempty. injection Hempty as Hempty.
  exists stem. split; [exact Hstem|].
  assert (Hres : forall u, get w u = Ok response ->
            result (get_digest w options u) =
            Ok (Some (absolute (cwd w)
                        (path_join (out_dir options) (stem ++ lit ".html")), body))).
  { intros u Hu.
    rewrite get_digest_unfold, Hu, Htext, Hempty, Hstatus, Hstem. reflexivity. }
  split; [apply Hres; exact Hget|].
  intros url1 Hget1. rewrite (Hres _ Hget), (Hres _ Hget1). reflexivity.
Qed.

Lemma get_digest_names_file_after_final_url_witness :
  exists stem,
    url_to_filename (url (Sample.page (data_url 2024 6) (lit "<html>digest</html>")))
      = Ok stem
    /\ result (get_digest Sample.redirect Sample.options (data_url 2000 1)) =
       Ok (Some (absolute (cwd Sample.redirect)
                   (path_join (out_dir Sample.options) (stem ++ lit ".html")),
                 lit "<html>digest</html>"))
    /\ forall url1,
         get Sample.redirect url1
           = Ok (Sample.page (data_url 2024 6) (lit "<html>digest</html>")) ->
         result (get_digest Sample.redirect Sample.options url1)
           = result (get_digest Sample.redirect Sample.options (data_url 2000 1)).
Proof.
  apply (get_digest_names_file_after_final_url
           Sample.redirect Sample.options (data_url 2000 1)
           (Sample.page (data_url 2024 6) (lit "<html>digest</html>"))
           (lit "<html>digest</html>")).
  - reflexivity.
  - reflexivity.
  - vm_compute. reflexivity.
  - vm_compute. reflexivity.
  - vm_compute. tauto.
Defined.

(* ===================================================================== *)
(** * Decoding *)
(* ===================================================================== *)

Section Decoding.

Import Utf8.

Lemma handle_ignore (items : list Item) :
  handle ignore items = Ok (kept items).
Proof.
  induction items as [|[cp|n] items IH]; simpl; [reflexivity| |exact IH].
  rewrite IH. reflexivity.
Qed.

Lemma handle_replace (items : list Item) :
  handle replace items = Ok (marked items).
Proof.
  induction items as [|[cp|n] items IH]; simpl; rewrite ?IH; reflexivity.
Qed.

(** Where [strict] succeeds nothing was rejected, and [ignore] gives the
    same string. *)
Lemma handle_strict (items : list Item) (s : str) :
  handle strict items = Ok s -> kept items = s /\ marked items = s.
Proof.
  revert s. induction items as [|[cp|n] items IH]; simpl; intros s H.
  - injection H as <-. split; reflexivity.
  - destruct (handle strict items) as [s'|]; [|discriminate].
    injection H as <-. destruct (IH s' eq_refl) as [-> ->]. split; reflexivity.
  - discriminate.
Qed.

Lemma kept_app (a b : list Item) : kept (a ++ b) = kept a ++ kept b.
Proof. unfold kept. apply flat_map_app. Qed.

(** A byte of no sequence is neither a lead nor a continuation. *)
Lemma never_valid_classes (x : Z) :
  never_valid x = true ->
  in_range 0 127 x = false /\ in_range 194 223 x = false
  /\ in_range 224 239 x = false /\ in_range 240 244 x = false
  /\ is_cont x = false
  /\ (forall b, second_of_three b x = false)
  /\ (forall b, second_of_four b x = false).
Proof.
  unfold never_valid, second_of_three, second_of_four, is_cont, in_range.
  intros H. apply negb_true_iff, orb_false_iff in H. destruct H as [H1 H2].
  apply andb_false_iff in H1, H2.
  repeat split; intros;
    repeat match goal with |- context [if ?c then _ else _] => destruct c end;
    apply andb_false_iff;
    rewrite ?Z.leb_gt in *; rewrite ?Z.leb_le in *; lia.
Qed.

Lemma scan_cons (b1 : Z) (r1 : bytes) :
  scan (b1 :: r1) =
      if in_range 0 127 b1 then Char b1 :: scan r1
      else if in_range 194 223 b1 then
        match r1 with
        | b2 :: r2 =>
            if is_cont b2 then Char (cp2 b1 b2) :: scan r2
            else Bad 1 :: scan r1
        | [] => Bad 1 :: scan r1
        end
      else if in_range 224 239 b1 then
        match r1 with
        | b2 :: r2 =>
            if second_of_three b1 b2 then
              match r2 with
              | b3 :: r3 =>
                  if is_cont b3 then Char (cp3 b1 b2 b3) :: scan r3
                  else Bad 2 :: scan r2
              | [] => Bad 2 :: scan r2
              end
            else Bad 1 :: scan r1
        | [] => Bad 1 :: scan r1
        end
      else if in_range 240 244 b1 then
        match r1 with
        | b2 :: r2 =>
            if second_of_four b1 b2 then
              match r2 with
              | b3 :: r3 =>
                  if is_cont b3 then
                    match r3 with
                    | b4 :: r4 =>
                        if is_cont b4 then Char (cp4 b1 b2 b3 b4) :: scan r4
                        else Bad 3 :: scan r3
                    | [] => Bad 3 :: scan r3
                    end
                  else Bad 2 :: scan r2
              | [] => Bad 2 :: scan r2
              end
            else Bad 1 :: scan r1
        | [] => Bad 1 :: scan r1
        end
      else Bad 1 :: scan r1.
Proof. reflexivity. Qed.

Lemma kept_char (cp : Z) (items : list Item) :
  kept (Char cp :: items) = cp :: kept items.
Proof. reflexivity. Qed.

Lemma kept_bad (n : nat) (items : list Item) :
  kept (Bad n :: items) = kept items.
Proof. reflexivity. Qed.

Lemma scan_never_valid (x : Z) (c : bytes) :
  never_valid x = true -> scan (x :: c) = Bad 1 :: scan c.
Proof.
  intros H. destruct (never_valid_classes x H) as (H1 & H2 & H3 & H4 & _).
  rewrite scan_cons, H1, H2, H3, H4. reflexivity.
Qed.

Lemma kept_scan_cut_bounded (x : Z) (c : bytes) (n : nat) :
  never_valid x = true ->
  forall a : bytes, (List.length a <= n)%nat ->
  kept (scan (a ++ x :: c)) = kept (scan a) ++ kept (scan c).
Proof.
  intros Hx.
  destruct (never_valid_classes x Hx) as (_ & _ & _ & _ & Hc & H3 & H4).
  pose proof (scan_never_valid x c Hx) as Hscan.
  induction n as [|n IH]; intros a Hlen.
  - destruct a; [|simpl in Hlen; lia]. simpl app. rewrite Hscan. reflexivity.
  - destruct a as [|b1 r1]; [simpl app; rewrite Hscan; reflexivity|].
    cbn [List.length] in Hlen.
    pose proof (IH r1 ltac:(lia)) as I1.
    assert (I2 : forall b2 r2, r1 = b2 :: r2 ->
              kept (scan (r2 ++ x :: c)) = kept (scan r2) ++ kept (scan c)).
    { intros b2 r2 ->. apply IH. cbn [List.length] in Hlen. lia. }
    assert (I3 : forall b2 b3 r3, r1 = b2 :: b3 :: r3 ->
              kept (scan (r3 ++ x :: c)) = kept (scan r3) ++ kept (scan c)).
    { intros b2 b3 r3 ->. apply IH. cbn [List.length] in Hlen. lia. }
    assert (I4 : forall b2 b3 b4 r4, r1 = b2 :: b3 :: b4 :: r4 ->
              kept (scan (r4 ++ x :: c)) = kept (scan r4) ++ kept (scan c)).
    { intros b2 b3 b4 r4 ->. apply IH. cbn [List.length] in Hlen. lia. }
    clear IH Hlen.
    change ((b1 :: r1) ++ x :: c) with (b1 :: (r1 ++ x :: c)).
    rewrite (scan_cons b1 (r1 ++ x :: c)), (scan_cons b1 r1).
    destruct r1 as [|b2 [|b3 [|b4 r4]]];
      try specialize (I2 _ _ eq_refl);
      try specialize (I3 _ _ _ eq_refl);
      try specialize (I4 _ _ _ _ eq_refl);
      cbn [app] in *;
      rewrite ?Hc, ?H3, ?H4;
      repeat match goal with
             | |- context [if ?b then _ else _] => destruct b
             end;
      rewrite ?kept_char, ?kept_bad, ?Hscan, ?kept_bad;
      rewrite ?I1, ?I2, ?I3, ?I4; try reflexivity.
Qed.

(** A byte of no sequence is left out, and the input before it and after
    it is decoded as if each stood alone. *)
Lemma kept_scan_cut (x : Z) (a c : bytes) :
  never_valid x = true ->
  kept (scan (a ++ x :: c)) = kept (scan a) ++ kept (scan c).
Proof.
  intros Hx. apply (kept_scan_cut_bounded x c (List.length a) Hx a). lia.
Qed.

Lemma decode_ignore (bs : bytes) : decode ignore bs = Ok (kept (scan bs)).
Proof. apply handle_ignore. Qed.

End Decoding.

(** C7 as stated does not hold: the body is decoded with [errors="ignore"].
    In the payload [A 0xFF B] the byte 0xFF is undecodable; the decoded
    body is [AB], with no replacement character, where [errors="replace"]
    would give [A U+FFFD B]. *)
Lemma undecodable_byte_is_dropped :
  Utf8.decode Utf8.strict [65; 255; 66] = Raise UnicodeDecodeError
  /\ Response_text (Sample.page (data_url 2024 6) [65; 255; 66]) = Ok [65; 66]
  /\ Utf8.decode Utf8.replace [65; 255; 66] = Ok [65; Utf8.REPLACEMENT; 66]
  /\ ~ In Utf8.REPLACEMENT [65; 66].
Proof.
  repeat split; try reflexivity.
  intros [H|[H|[]]]; discriminate H.
Qed.

(** C7, amended: the body is decoded as UTF-8 and undecodable byte
    sequences are left out instead of failing the operation.  For every
    payload that was read, decoding returns a body and [get_digest] logs no
    decoding error; the body holds the code points of the decodable
    sequences in order, so it is the strict decoding where that exists;
    and a byte that occurs in no UTF-8 sequence is dropped, the bytes
    before and after it being decoded as if each part stood alone. *)
Theorem Response_text_leaves_out_undecodable (response : Response) (bs : bytes) :
  payload response = Ok bs ->
  exists body,
    Response_text response = Ok body
    /\ body = Utf8.kept (Utf8.scan bs)
    /\ (forall s, Utf8.decode Utf8.strict bs = Ok s -> body = s)
    /\ (forall a x c, bs = a ++ x :: c -> Utf8.never_valid x = true ->
          exists before after,
            Utf8.decode Utf8.ignore a = Ok before
            /\ Utf8.decode Utf8.ignore c = Ok after
            /\ body = before ++ after)
    /\ (forall w options url0 e, get w url0 = Ok response ->
          ~ In (EvLog ERROR (DecodeFailed url0 e))
               (events (get_digest w options url0))).
Proof.
  intros Hpay. exists (Utf8.kept (Utf8.scan bs)).
  assert (Htext : Response_text response = Ok (Utf8.kept (Utf8.scan bs))).
  { unfold Response_text. rewrite Hpay. apply decode_ignore. }
  split; [exact Htext|]. split; [reflexivity|]. split; [|split].
  - intros s Hs. apply handle_strict in Hs. apply Hs.
  - intros a x c -> Hx. exists (Utf8.kept (Utf8.scan a)), (Utf8.kept (Utf8.scan c)).
    rewrite !decode_ignore. repeat split. apply kept_scan_cut. exact Hx.
  - intros w options url0 e Hget. rewrite get_digest_unfold, Hget, Htext.
    destruct (contains MARKER _ && _).
    { intros [H|[H|[]]]; discriminate H. }
    destruct (status response =? 200).
    2:{ intros [H|[H|[]]]; discriminate H. }
    destruct (url_to_filename (url response));
      intros [H|[H|[]]]; discriminate H.
Qed.

Lemma Response_text_leaves_out_undecodable_witness :
  exists body,
    Response_text (Sample.page (data_url 2024 6) [65; 255; 66]) = Ok body
    /\ body = Utf8.kept (Utf8.scan [65; 255; 66])
    /\ (forall s, Utf8.decode Utf8.strict [65; 255; 66] = Ok s -> body = s)
    /\ (forall a x c, [65; 255; 66] = a ++ x :: c -> Utf8.never_valid x = true ->
          exists before after,
            Utf8.decode Utf8.ignore a = Ok before
            /\ Utf8.decode Utf8.ignore c = Ok after
            /\ body = before ++ after)
    /\ (forall w options url0 e,
          get w url0 = Ok (Sample.page (data_url 2024 6) [65; 255; 66]) ->
          ~ In (EvLog ERROR (DecodeFailed url0 e))
               (events (get_digest w options url0))).
Proof.
  apply (Response_text_leaves_out_undecodable
           (Sample.page (data_url 2024 6) [65; 255; 66]) [65; 255; 66]).
  reflexivity.
Defined.

(* ===================================================================== *)
(** * [ProgressBar] *)
(* ===================================================================== *)

Section Progress.

Lemma ProgressBar_percent_ok (self : ProgressBar) (it : Z) :
  ProgressBar_percent self it = Ok tt <->
  total self <> 0 /\ 0 <= decimals self <= INT_MAX.
Proof.
  unfold ProgressBar_percent.
  destruct (Z.eqb_spec (total self) 0) as [H0|H0].
  - split; [discriminate|]. intros [H _]. contradiction.
  - destruct (Z.leb_spec 0 (decimals self)) as [Hlo|Hlo],
             (Z.leb_spec (decimals self) INT_MAX) as [Hhi|Hhi];
      cbn [andb]; split; try discriminate; try (intros _; split; [assumption|lia]);
      try reflexivity; intros [_ Hd]; lia.
Qed.

(** [update], branch by branch. *)
Lemma ProgressBar_update_unfold (self : ProgressBar) (it : Z) :
  ProgressBar_update self it =
  if finished self then ([], Ok self)
  else match ProgressBar_percent self it with
       | Raise e => ([], Raise e)
       | Ok _ =>
           if it =? total self
           then ([EvPrintBar it (ProgressBar_bar self it); EvPrintNewline],
                 Ok (set_finished self))
           else ([EvPrintBar it (ProgressBar_bar self it)], Ok self)
       end.
Proof.
  unfold ProgressBar_update.
  destruct (finished self); [reflexivity|].
  destruct (ProgressBar_percent self it) as [[]|e]; [|reflexivity].
  destruct (it =? total self); reflexivity.
Qed.

Lemma inert_update (self : ProgressBar) (it : Z) :
  inert self ->
  events (ProgressBar_update self it) = [] /\ after_update self it = self.
Proof.
  intros [Hf|[e He]]; unfold after_update; rewrite ProgressBar_update_unfold.
  - rewrite Hf. split; reflexivity.
  - rewrite He. destruct (finished self); split; reflexivity.
Qed.

Lemma inert_update_calls (self : ProgressBar) (calls : list Z) :
  inert self -> update_calls self calls = ([], self).
Proof.
  intros H. induction calls as [|it calls IH]; [reflexivity|].
  simpl. destruct (inert_update self it H) as [-> ->]. rewrite IH. reflexivity.
Qed.

Lemma after_update_total (self : ProgressBar) (it : Z) :
  total (after_update self it) = total self.
Proof.
  unfold after_update. rewrite ProgressBar_update_unfold.
  destruct (finished self); [reflexivity|].
  destruct (ProgressBar_percent self it) as [[]|e]; [|reflexivity].
  destruct (it =? total self); reflexivity.
Qed.

Lemma after_update_iteration (self : ProgressBar) (it : Z) :
  iteration (after_update self it) = iteration self.
Proof.
  unfold after_update. rewrite ProgressBar_update_unfold.
  destruct (finished self); [reflexivity|].
  destruct (ProgressBar_percent self it) as [[]|e]; [|reflexivity].
  destruct (it =? total self); reflexivity.
Qed.

(** The call with [iteration == total] leaves the bar inert. *)
Lemma after_update_total_inert (self : ProgressBar) :
  inert (after_update self (total self)).
Proof.
  unfold inert, after_update. rewrite ProgressBar_update_unfold.
  destruct (finished self) eqn:Hf; [left; exact Hf|].
  destruct (ProgressBar_percent self (total self)) as [[]|e] eqn:Hp.
  - rewrite Z.eqb_refl. left. reflexivity.
  - right. exists e. intros it. rewrite <- Hp. reflexivity.
Qed.

Lemma inert_after_update (self : ProgressBar) (it : Z) :
  inert self -> inert (after_update self it).
Proof. intros H. destruct (inert_update self it H) as [_ ->]. exact H. Qed.

Lemma update_calls_app (self : ProgressBar) (a b : list Z) :
  update_calls self (a ++ b) =
  (fst (update_calls self a) ++ fst (update_calls (snd (update_calls self a)) b),
   snd (update_calls (snd (update_calls self a)) b)).
Proof.
  revert self. induction a as [|it a IH]; intros self; simpl.
  - destruct (update_calls self b). reflexivity.
  - rewrite IH. destruct (update_calls (after_update self it) a) as [evs self'].
    simpl. rewrite app_assoc. reflexivity.
Qed.

Lemma update_calls_total (self : ProgressBar) (calls : list Z) :
  total (snd (update_calls self calls)) = total self.
Proof.
  revert self. induction calls as [|it calls IH]; intros self; simpl; [reflexivity|].
  specialize (IH (after_update self it)).
  destruct (update_calls (after_update self it) calls) as [evs self'].
  simpl in *. rewrite IH. apply after_update_total.
Qed.

Lemma update_calls_iteration (self : ProgressBar) (calls : list Z) :
  iteration (snd (update_calls self calls)) = iteration self.
Proof.
  revert self. induction calls as [|it calls IH]; intros self; simpl; [reflexivity|].
  specialize (IH (after_update self it)).
  destruct (update_calls (after_update self it) calls) as [evs self'].
  simpl in *. rewrite IH. apply after_update_iteration.
Qed.

Lemma printed_app (a b : list Event) : printed (a ++ b) = printed a ++ printed b.
Proof. unfold printed. apply flat_map_app. Qed.

Lemma full_bars_app (t : Z) (a b : list Event) :
  full_bars t (a ++ b) = (full_bars t a + full_bars t b)%nat.
Proof. unfold full_bars. rewrite printed_app. apply count_occ_app. Qed.

(** One call prints the full bar at most once, and then the bar is
    inert. *)
Lemma full_bars_update (self : ProgressBar) (it : Z) :
  (full_bars (total self) (events (ProgressBar_update self it)) = 0%nat
   /\ (inert self \/ it <> total self))
  \/ (full_bars (total self) (events (ProgressBar_update self it)) = 1%nat
      /\ it = total self /\ ~ inert self /\ inert (after_update self it)).
Proof.
  pose proof (after_update_total_inert self) as Hin.
  unfold inert in *. unfold after_update in *.
  rewrite ProgressBar_update_unfold in *.
  destruct (finished self) eqn:Hf; [left; split; [reflexivity|left; left; reflexivity]|].
  destruct (ProgressBar_percent self it) as [[]|e] eqn:Hp.
  2:{ left. split; [reflexivity|]. left. right. exists e. intros it'.
      rewrite <- Hp. reflexivity. }
  destruct (Z.eqb_spec it (total self)) as [->|Hne].
  - right. rewrite Hp, Z.eqb_refl in Hin. unfold full_bars. simpl.
    destruct (Z.eq_dec (total self) (total self)); [|contradiction].
    repeat split; try reflexivity; [|exact Hin].
    intros [H|[e' H]]; [discriminate|]. rewrite H in Hp. discriminate.
  - left. unfold full_bars. simpl.
    destruct (Z.eq_dec it (total self)); [contradiction|].
    split; [reflexivity|right; exact Hne].
Qed.

(** Over any sequence of calls the full bar is printed at most once. *)
Lemma full_bars_at_most_once (self : ProgressBar) (calls : list Z) :
  (full_bars (total self) (fst (update_calls self calls)) <= 1)%nat.
Proof.
  revert self. induction calls as [|it calls IH]; intros self; simpl; [unfold full_bars; simpl; lia|].
  specialize (IH (after_update self it)). rewrite after_update_total in IH.
  destruct (update_calls (after_update self it) calls) as [evs self'] eqn:E.
  simpl in *. rewrite full_bars_app.
  destruct (full_bars_update self it) as [[-> _]|(-> & _ & _ & Hin)]; [exact IH|].
  rewrite (inert_update_calls _ calls Hin) in E. injection E as <- _.
  unfold full_bars. simpl. lia.
Qed.

(** A live bar prints the full bar once a call asks for it. *)
Lemma full_bars_exactly_once (self : ProgressBar) (calls : list Z) :
  ~ inert self -> In (total self) calls ->
  full_bars (total self) (fst (update_calls self calls)) = 1%nat.
Proof.
  revert self. induction calls as [|it calls IH]; intros self Hlive Hin; [destruct Hin|].
  simpl. specialize (IH (after_update self it)). rewrite after_update_total in IH.
  destruct (update_calls (after_update self it) calls) as [evs self'] eqn:E.
  simpl in *. rewrite full_bars_app.
  destruct (full_bars_update self it) as [[-> [Hi|Hne]]|(-> & _ & _ & Hi)].
  - contradiction.
  - destruct Hin as [Heq|Hin]; [congruence|].
    apply IH; [|exact Hin].
    unfold after_update. rewrite ProgressBar_update_unfold.
    destruct (finished self) eqn:Hf; [exact Hlive|].
    destruct (ProgressBar_percent self it) as [[]|e]; [|exact Hlive].
    destruct (Z.eqb_spec it (total self)); [contradiction|exact Hlive].
  - rewrite (inert_update_calls _ calls Hi) in E. injection E as <- _.
    unfold full_bars. simpl. lia.
Qed.

End Progress.

(* ===================================================================== *)
(** * [fetch] *)
(* ===================================================================== *)

Section Fetch.

Lemma bind_unfold {A B : Type} (m : Eff A) (k : A -> Eff B) :
  bind m k =
  match result m with
  | Ok a => (events m ++ events (k a), result (k a))
  | Raise e => (events m, Raise e)
  end.
Proof.
  destruct m as [evs [a|e]]; simpl; [|reflexivity].
  destruct (k a). reflexivity.
Qed.

Lemma written_app (a b : list Event) : written (a ++ b) = written a ++ written b.
Proof. unfold written. apply flat_map_app. Qed.

Lemma awaited_app (a b : list Event) : awaited (a ++ b) = awaited a ++ awaited b.
Proof. unfold awaited. apply flat_map_app. Qed.

Lemma successes_app (a b : list Task) : successes (a ++ b) = successes a ++ successes b.
Proof. unfold successes. apply flat_map_app. Qed.

(** Events of tasks are read as nothing by the readers of the loop. *)
Lemma task_events_read (evs : list Event) :
  Forall task_event evs ->
  written evs = [] /\ printed evs = [] /\ awaited evs = []
  /\ Forall (fun ev => ~ session_event ev) evs.
Proof.
  induction 1 as [|ev evs Hev _ (IHw & IHp & IHa & IHs)].
  - repeat split. constructor.
  - destruct ev; try contradiction; simpl; repeat split; try assumption;
      constructor; try assumption; intros [].
Qed.

Lemma get_digest_task_events (w : World) (options : Options) (url0 : str) :
  Forall task_event (events (get_digest w options url0)).
Proof.
  destruct (get_digest_events w options url0) as (logs & -> & Hlogs).
  constructor; [exact I|].
  eapply Forall_impl; [|exact Hlogs]. intros ev (lvl & m & ->). exact I.
Qed.

Lemma Forall_skipn {A : Type} (P : A -> Prop) (n : nat) (l : list A) :
  Forall P l -> Forall P (skipn n l).
Proof.
  intros H. rewrite Forall_forall in *. intros x Hx.
  apply H. rewrite <- (firstn_skipn n l). apply in_or_app. right. exact Hx.
Qed.

Lemma Forall_firstn {A : Type} (P : A -> Prop) (n : nat) (l : list A) :
  Forall P l -> Forall P (firstn n l).
Proof.
  intros H. rewrite Forall_forall in *. intros x Hx.
  apply H. rewrite <- (firstn_skipn n l). apply in_or_app. left. exact Hx.
Qed.

(** [update_if], case by case: nothing happens, or the call raises before
    it prints, or the bar is printed for [it]. *)
Lemma update_if_unfold (pb : option ProgressBar) (it : Z) :
  update_if pb it =
  match pb with
  | None => ([], Ok None)
  | Some p =>
      if finished p then ([], Ok (Some p))
      else match ProgressBar_percent p it with
           | Raise e => ([], Raise e)
           | Ok _ =>
               if it =? total p
               then ([EvPrintBar it (ProgressBar_bar p it); EvPrintNewline],
                     Ok (Some (set_finished p)))
               else ([EvPrintBar it (ProgressBar_bar p it)], Ok (Some p))
           end
  end.
Proof.
  destruct pb as [p|]; [|reflexivity].
  unfold update_if. rewrite ProgressBar_update_unfold.
  destruct (finished p); [reflexivity|].
  destruct (ProgressBar_percent p it) as [[]|e]; [|reflexivity].
  destruct (it =? total p); reflexivity.
Qed.

Lemma update_if_read (pb : option ProgressBar) (it : Z) :
  written (events (update_if pb it)) = []
  /\ awaited (events (update_if pb it)) = []
  /\ Forall (fun ev => ~ session_event ev) (events (update_if pb it))
  /\ (printed (events (update_if pb it)) = []
      \/ printed (events (update_if pb it)) = [it]).
Proof.
  rewrite update_if_unfold. destruct pb as [p|].
  2:{ repeat split; [constructor|left; reflexivity]. }
  destruct (finished p). { repeat split; [constructor|left; reflexivity]. }
  destruct (ProgressBar_percent p it) as [[]|e].
  2:{ repeat split; [constructor|left; reflexivity]. }
  destruct (it =? total p); simpl; repeat split;
    try (right; reflexivity); repeat constructor; intros [].
Qed.

(** A sound bar is updated without an exception and stays sound. *)
Lemma update_if_sound (pb : option ProgressBar) (it : Z) :
  sound_bar pb ->
  exists pb', result (update_if pb it) = Ok pb' /\ sound_bar pb'.
Proof.
  intros Hs. rewrite update_if_unfold. destruct pb as [p|].
  2:{ exists None. split; [reflexivity|exact I]. }
  simpl in Hs. destruct (finished p) eqn:Hf.
  { exists (Some p). split; [reflexivity|]. simpl. left. exact Hf. }
  destruct Hs as [Hs|Hs]; [discriminate|]. rewrite Hs.
  destruct (it =? total p).
  - exists (Some (set_finished p)). split; [reflexivity|]. simpl. left. reflexivity.
  - exists (Some p). split; [reflexivity|]. simpl. right. exact Hs.
Qed.

(** One turn of the loop, outcome by outcome. *)
Lemma fetch_body_unfold (w : World) (pb : option ProgressBar) (idx : Z)
  (starting : list Event) (task : Task) :
  fetch_body w pb idx starting task =
  match result (update_if pb (idx + 1)) with
  | Raise e => (events (update_if pb (idx + 1)), Raise e)
  | Ok pb' =>
      let pre := events (update_if pb (idx + 1)) ++ starting
                   ++ skipn 1 (events task) ++ [EvAwaited idx] in
      match result task with
      | Raise e => (pre, Raise e)
      | Ok None => (pre, Ok pb')
      | Ok (Some (path, body)) =>
          if disk_accepts w path body
          then (pre ++ [EvFileWrite path body; EvLog DEBUG (SavedDigest path)],
                Ok pb')
          else (pre, Raise OSError)
      end
  end.
Proof.
  unfold fetch_body. destruct (update_if pb (idx + 1)) as [uevs [pb'|e]];
    [|reflexivity].
  destruct task as [tevs [[[path body]|]|e]]; unfold write_digest; simpl.
  - destruct (disk_accepts w path body); simpl;
      repeat rewrite <- app_assoc; simpl; rewrite ?app_nil_r; reflexivity.
  - repeat rewrite <- app_assoc. simpl. rewrite ?app_nil_r. reflexivity.
  - repeat rewrite <- app_assoc. reflexivity.
Qed.

Lemma fetch_loop_cons (w : World) (pb : option ProgressBar) (idx : Z)
  (starting : list Event) (task : Task) (rest : list Task) :
  fetch_loop w pb idx starting (task :: rest) =
  match result (fetch_body w pb idx starting task) with
  | Ok pb' =>
      (events (fetch_body w pb idx starting task)
         ++ events (fetch_loop w pb' (idx + 1) [] rest),
       result (fetch_loop w pb' (idx + 1) [] rest))
  | Raise e => (events (fetch_body w pb idx starting task), Raise e)
  end.
Proof. simpl. apply bind_unfold. Qed.

(** What holds of every turn, however it ends. *)
Lemma fetch_body_general (w : World) (pb : option ProgressBar) (idx : Z)
  (starting : list Event) (task : Task) :
  Forall task_event starting -> Forall task_event (events task) ->
  let b := fetch_body w pb idx starting task in
  Forall (fun ev => ~ session_event ev) (events b)
  /\ (printed (events b) = [] \/ printed (events b) = [idx + 1])
  /\ incl (written (events b)) (successes [task])
  /\ (result b = Raise OSError
      \/ (exists e, result (update_if pb (idx + 1)) = Raise e)
      \/ (exists pb', result b = Ok pb') \/ exists e, result task = Raise e).
Proof.
  intros Hst Htk b. subst b. rewrite fetch_body_unfold.
  destruct (update_if_read pb (idx + 1)) as (Uw & Ua & Us & Up).
  destruct (task_events_read starting Hst) as (Sw & Sp & Sa & Ss).
  destruct (task_events_read _ (Forall_skipn _ 1 _ Htk)) as (Tw & Tp & Ta & Ts).
  assert (Hpre_s : Forall (fun ev => ~ session_event ev)
            (events (update_if pb (idx + 1)) ++ starting
               ++ skipn 1 (events task) ++ [EvAwaited idx])).
  { repeat (apply Forall_app; split); try assumption.
    constructor; [intros []|constructor]. }
  assert (Hpre_p : printed (events (update_if pb (idx + 1)) ++ starting
                      ++ skipn 1 (events task) ++ [EvAwaited idx])
                   = printed (events (update_if pb (idx + 1)))).
  { rewrite !printed_app, Sp, Tp. simpl. rewrite app_nil_r. reflexivity. }
  assert (Hpre_w : written (events (update_if pb (idx + 1)) ++ starting
                      ++ skipn 1 (events task) ++ [EvAwaited idx]) = []).
  { rewrite !written_app, Uw, Sw, Tw. reflexivity. }
  destruct (result (update_if pb (idx + 1))) as [pb'|e] eqn:Eu.
  2:{ cbn [events result fst snd]. split; [exact Us|]. split; [exact Up|]. rewrite Uw.
      split; [intros ? []|]. right. left. exists e. reflexivity. }
  cbv zeta. unfold successes. simpl flat_map. rewrite app_nil_r.
  destruct (result task) as [[[path body]|]|e] eqn:Et.
  - destruct (disk_accepts w path body); cbn [events result fst snd].
    + split; [apply Forall_app; split; [exact Hpre_s|]|].
      { repeat constructor; intros []. }
      rewrite printed_app, written_app, Hpre_p, Hpre_w.
      cbn [printed written flat_map app]. rewrite app_nil_r. split; [exact Up|]. split; [apply incl_refl|].
      right. right. left. eauto.
    + rewrite Hpre_p, Hpre_w. repeat split; try assumption; [intros ? []|].
      left. reflexivity.
  - cbn [events result fst snd]. rewrite Hpre_p, Hpre_w. repeat split; try assumption; [intros ? []|].
    right. right. left. eauto.
  - cbn [events result fst snd]. rewrite Hpre_p, Hpre_w. repeat split; try assumption; [intros ? []|].
    right. right. right. eauto.
Qed.

(** A turn on a task that returned, with a sound bar and a disk that
    takes the file: the turn ends, what the task returned is written, and
    the position was awaited. *)
Lemma fetch_body_ok (w : World) (pb : option ProgressBar) (idx : Z)
  (starting : list Event) (task : Task) (r : option (Path * str)) :
  sound_bar pb ->
  Forall task_event starting -> Forall task_event (events task) ->
  result task = Ok r ->
  (forall path body, r = Some (path, body) -> disk_accepts w path body = true) ->
  exists pb',
    result (fetch_body w pb idx starting task) = Ok pb' /\ sound_bar pb'
    /\ written (events (fetch_body w pb idx starting task)) = successes [task]
    /\ awaited (events (fetch_body w pb idx starting task)) = [idx].
Proof.
  intros Hs Hst Htk Hr Hdisk. rewrite fetch_body_unfold.
  destruct (update_if_read pb (idx + 1)) as (Uw & Ua & _ & _).
  destruct (task_events_read starting Hst) as (Sw & _ & Sa & _).
  destruct (task_events_read _ (Forall_skipn _ 1 _ Htk)) as (Tw & _ & Ta & _).
  destruct (update_if_sound pb (idx + 1) Hs) as (pb' & -> & Hs').
  exists pb'. cbv zeta. unfold successes. simpl flat_map. rewrite app_nil_r, Hr.
  destruct r as [[path body]|].
  - rewrite (Hdisk path body eq_refl). cbn [events result fst snd].
    rewrite !written_app, !awaited_app, Uw, Ua, Sw, Sa, Tw, Ta.
    repeat split. exact Hs'.
  - cbn [events result fst snd].
    rewrite !written_app, !awaited_app, Uw, Ua, Sw, Sa, Tw, Ta.
    repeat split. exact Hs'.
Qed.


Lemma positions_cons (idx : Z) (n : nat) :
  positions idx (S n) = idx :: positions (idx + 1) n.
Proof.
  unfold positions. simpl. f_equal; [lia|].
  rewrite <- seq_shift, map_map. apply map_ext. intros k. lia.
Qed.

(** What holds of the loop, however it ends: no event of the session, the
    bar printed for growing positions, and only results of tasks
    written. *)
Lemma fetch_loop_general (w : World) (completed : list Task) :
  Forall (fun t => Forall task_event (events t)) completed ->
  forall (pb : option ProgressBar) (idx : Z) (starting : list Event),
  Forall task_event starting ->
  let l := fetch_loop w pb idx starting completed in
  Forall (fun ev => ~ session_event ev) (events l)
  /\ StronglySorted Z.lt (printed (events l))
  /\ Forall (fun i => idx < i) (printed (events l))
  /\ incl (written (events l)) (successes completed).
Proof.
  induction 1 as [|task rest Htask _ IH]; intros pb idx starting Hst; cbv zeta.
  - simpl. repeat split; try constructor. intros ? [].
  - rewrite fetch_loop_cons.
    destruct (fetch_body_general w pb idx starting task Hst Htask)
      as (Bs & Bp & Bw & _).
    change (task :: rest) with ([task] ++ rest). rewrite successes_app.
    destruct (result (fetch_body w pb idx starting task)) as [pb'|e].
    + destruct (IH pb' (idx + 1) [] (Forall_nil _)) as (Ls & Lp & Lb & Lw).
      cbn [events result fst snd].
      rewrite printed_app, written_app.
      split; [apply Forall_app; split; assumption|].
      split; [|split].
      * destruct Bp as [->| ->]; [exact Lp|].
        simpl. constructor; assumption.
      * apply Forall_app. split.
        -- destruct Bp as [->| ->]; repeat constructor. lia.
        -- eapply Forall_impl; [|exact Lb]. intros i Hi. simpl in Hi. lia.
      * apply incl_app; [apply incl_appl|apply incl_appr]; assumption.
    + cbn [events result fst snd].
      split; [exact Bs|]. split; [|split].
      * destruct Bp as [->| ->]; repeat constructor.
      * destruct Bp as [->| ->]; repeat constructor. lia.
      * apply incl_appl. exact Bw.
Qed.

(** The loop over tasks that all returned, with a sound bar and a disk
    that takes every file: it ends, every position is awaited, and the
    files written are the pairs returned, in completion order. *)
Lemma fetch_loop_ok (w : World) (completed : list Task) :
  Forall (fun t => Forall task_event (events t)) completed ->
  (forall t, In t completed -> exists r, result t = Ok r) ->
  (forall path body, In (path, body) (successes completed) ->
                     disk_accepts w path body = true) ->
  forall (pb : option ProgressBar) (idx : Z) (starting : list Event),
  sound_bar pb -> Forall task_event starting ->
  result (fetch_loop w pb idx starting completed) = Ok tt
  /\ written (events (fetch_loop w pb idx starting completed)) = successes completed
  /\ awaited (events (fetch_loop w pb idx starting completed))
     = positions idx (List.length completed).
Proof.
  induction 1 as [|task rest Htask _ IH]; intros Hret Hdisk pb idx starting Hs Hst.
  - repeat split.
  - rewrite fetch_loop_cons. cbn [List.length]. rewrite positions_cons.
    change (task :: rest) with ([task] ++ rest) in *.
    rewrite successes_app in *.
    destruct (Hret task (or_introl eq_refl)) as [r Hr].
    destruct (fetch_body_ok w pb idx starting task r Hs Hst Htask Hr)
      as (pb' & -> & Hs' & Bw & Ba).
    { intros path body ->. apply Hdisk. apply in_or_app. left.
      unfold successes. simpl. rewrite Hr. left. reflexivity. }
    cbn [events result fst snd]. rewrite written_app, awaited_app, Bw, Ba.
    destruct (IH (fun t Ht => Hret t (or_intror Ht))
                 (fun path body Hin => Hdisk path body
                    (in_or_app _ _ _ (or_intror Hin)))
                 pb' (idx + 1) [] Hs' (Forall_nil _)) as (-> & -> & ->).
    repeat split.
Qed.


End Fetch.

(* ===================================================================== *)
(** * The run as a whole *)
(* ===================================================================== *)

Section Run.

Lemma as_completed_In {A : Type} (tasks : list A) (order : list nat) (t : A) :
  In t (as_completed tasks order) -> In t tasks.
Proof.
  unfold as_completed. rewrite in_flat_map. intros (i & _ & Hi).
  destruct (nth_error tasks i) eqn:E; [|destruct Hi].
  destruct Hi as [<-|[]]. eapply nth_error_In. exact E.
Qed.

Lemma as_completed_nil {A : Type} (order : list nat) :
  as_completed (@nil A) order = [].
Proof.
  unfold as_completed. induction order as [|i order IH]; [reflexivity|].
  simpl. destruct i; exact IH.
Qed.

(** A task that starts is one of the tasks submitted, and the tasks of a
    list of URLs start as the URLs are picked. *)
Lemma scheduled_In {A : Type} (tasks : list A) (started : list nat) (t : A) :
  In t (scheduled tasks started) -> In t tasks.
Proof. apply as_completed_In. Qed.

Lemma scheduled_map {A B : Type} (f : A -> B) (l : list A) (started : list nat) :
  scheduled (map f l) started = map f (scheduled l started).
Proof.
  unfold scheduled. induction started as [|i started IH]; [reflexivity|].
  cbn [flat_map]. rewrite map_app, IH, nth_error_map.
  destruct (nth_error l i); reflexivity.
Qed.

(** In the order of submission every task is met once. *)
Lemma as_completed_from {A : Type} (done tasks : list A) :
  as_completed (done ++ tasks) (seq (List.length done) (List.length tasks)) = tasks.
Proof.
  revert done. induction tasks as [|t tasks IH]; intros done; [reflexivity|].
  unfold as_completed in *. simpl.
  rewrite nth_error_app2, Nat.sub_diag by lia. simpl. f_equal.
  specialize (IH (done ++ [t])). rewrite <- app_assoc, length_app in IH.
  simpl in IH. rewrite Nat.add_1_r in IH. exact IH.
Qed.

(** Whatever the completion order, the tasks met are the tasks
    submitted. *)
Lemma as_completed_perm {A : Type} (tasks : list A) (order : list nat) :
  Permutation order (seq 0 (List.length tasks)) ->
  Permutation (as_completed tasks order) tasks.
Proof.
  intros H. rewrite <- (as_completed_from [] tasks) at 2.
  unfold as_completed. apply Permutation_flat_map. exact H.
Qed.

Lemma successes_perm (a b : list Task) :
  Permutation a b -> Permutation (successes a) (successes b).
Proof. unfold successes. apply Permutation_flat_map. Qed.

Lemma successes_In (tasks : list Task) (file : Path) (content : str) :
  In (file, content) (successes tasks) ->
  exists t, In t tasks /\ result t = Ok (Some (file, content)).
Proof.
  unfold successes. rewrite in_flat_map. intros (t & Ht & Hin).
  exists t. split; [exact Ht|].
  destruct (result t) as [[pc|]|]; [|destruct Hin|destruct Hin].
  destruct Hin as [->|[]]. reflexivity.
Qed.

Lemma tasks_task_events (w : World) (options : Options) (urls : list str)
  (started order : list nat) :
  Forall (fun t => Forall task_event (events t))
         (as_completed (map (get_digest w options) urls) order)
  /\ Forall task_event
       (flat_map task_start (scheduled (map (get_digest w options) urls) started)).
Proof.
  split.
  - rewrite Forall_forall. intros t Ht. apply as_completed_In in Ht.
    rewrite in_map_iff in Ht. destruct Ht as (u & <- & _).
    apply get_digest_task_events.
  - rewrite Forall_forall. intros ev Hev. rewrite in_flat_map in Hev.
    destruct Hev as (t & Ht & Hev). apply scheduled_In in Ht.
    rewrite in_map_iff in Ht.
    destruct Ht as (u & <- & _).
    pose proof (Forall_firstn _ 1 _ (get_digest_task_events w options u)) as H.
    rewrite Forall_forall in H. apply H. exact Hev.
Qed.

(** [fetch]: the session is opened, the login sent; the loop runs if the
    login returned; the session is closed. *)
Lemma fetch_unfold (w : World) (started order : list nat) (urls : list str)
  (options : Options) (pb : option ProgressBar) :
  fetch w started order urls options pb =
  let tasks := map (get_digest w options) urls in
  let loop := fetch_loop w pb 0 (flat_map task_start (scheduled tasks started))
                (as_completed tasks order) in
  match post w with
  | Ok _ =>
      (EvSessionOpen :: EvPost AUTH_URL (username options) (password options)
         :: events loop ++ [EvSessionClose],
       result loop)
  | Raise e =>
      ([EvSessionOpen; EvPost AUTH_URL (username options) (password options);
        EvSessionClose], Raise e)
  end.
Proof.
  unfold fetch, finally. cbv zeta.
  destruct (post w) as [[]|e]; simpl; [|reflexivity].
  destruct (fetch_loop w pb 0 _ _) as [evs r]. reflexivity.
Qed.

(** The bar of the main block is sound whenever there is a URL. *)
Lemma progress_sound (options : Options) (urls : list str) :
  urls <> [] -> sound_bar (progress options urls).
Proof.
  intros Hne. unfold progress. destruct (verbose options); [exact I|].
  right. intros it. apply ProgressBar_percent_ok. cbn [ProgressBar_init total decimals].
  unfold len, INT_MAX. destruct urls; [contradiction|]. cbn [List.length]. lia.
Qed.

(** An event between two others of a list that starts with [a], [b] and
    ends with [c], when it is none of the three. *)
Lemma inside_frame {A : Type} (a b c x : A) (inner pre post : list A) :
  a :: b :: inner ++ [c] = pre ++ x :: post ->
  x <> a -> x <> b -> x <> c ->
  exists pre' post', pre = a :: b :: pre' /\ post = post' ++ [c]
                     /\ inner = pre' ++ x :: post'.
Proof.
  intros H Ha Hb Hc.
  destruct pre as [|p1 [|p2 pre']]; simpl in H.
  - injection H as H _. congruence.
  - injection H as _ H _. congruence.
  - injection H as <- <- H.
    destruct post as [|z post] using rev_ind.
    + change (pre' ++ [x]) with (pre' ++ [x]) in H.
      apply app_inj_tail in H. destruct H as [_ H]. congruence.
    + clear IHpost. change (pre' ++ x :: post ++ [z]) with (pre' ++ (x :: post) ++ [z]) in H.
      rewrite app_assoc in H. apply app_inj_tail in H. destruct H as [-> ->].
      exists pre', post. repeat split.
Qed.

Lemma range_In (a b x : Z) : In x (range a b) <-> a <= x < b.
Proof.
  unfold range. rewrite in_map_iff. split.
  - intros (i & <- & Hi). apply in_seq in Hi. lia.
  - intros Hx. exists (Z.to_nat (x - a)). split; [lia|].
    apply in_seq. lia.
Qed.

(** The candidate URLs are the URLs of the months of the years from 2000
    to the current one. *)
Lemma all_urls_In (now_year : Z) (u : str) :
  In u (all_urls now_year) <->
  exists Y M, 2000 <= Y <= now_year /\ 1 <= M <= 12 /\ u = data_url Y M.
Proof.
  unfold all_urls. rewrite in_flat_map. split.
  - intros (Y & HY & Hu). rewrite in_map_iff in Hu. destruct Hu as (M & <- & HM).
    apply range_In in HY, HM. exists Y, M. repeat split; lia.
  - intros (Y & M & HY & HM & ->). exists Y. split; [apply range_In; lia|].
    rewrite in_map_iff. exists M. split; [reflexivity|apply range_In; lia].
Qed.

(** Every candidate URL is of the shape [url_to_filename] accepts. *)
Lemma all_urls_accepted (now_year : Z) (u : str) :
  In u (all_urls now_year) -> exists stem, url_to_filename u = Ok stem.
Proof.
  rewrite all_urls_In. intros (Y & M & HY & HM & ->).
  eexists. apply url_to_filename_data_url; lia.
Qed.

(** The destination of every pair [get_digest] returns. *)
Lemma get_digest_well_placed (w : World) (options : Options) (url0 : str)
  (file : Path) (content : str) :
  result (get_digest w options url0) = Ok (Some (file, content)) ->
  well_placed w options file.
Proof.
  rewrite get_digest_unfold.
  destruct (get w url0) as [response|e]; [|discriminate].
  destruct (Response_text response) as [body|e]; [|discriminate].
  destruct (contains MARKER body && (len body <? 100)); [discriminate|].
  destruct (status response =? 200); [|discriminate].
  destruct (url_to_filename (url response)) as [stem|e] eqn:Hstem; [|discriminate].
  intros [= <- _].
  destruct (destination_path (cwd w) (out_dir options) _ _ Hstem) as [Hp Hn].
  unfold well_placed. rewrite Hn. split; [exact Hp|].
  destruct (url_to_filename_form _ _ Hstem) as (y & m & -> & _). split.
  - rewrite <- app_assoc. apply startswith_app.
  - unfold endswith. rewrite rev_app_distr. apply startswith_app.
Qed.

End Run.

(* ===================================================================== *)
(** * The claims about the run *)
(* ===================================================================== *)

(** A run of two URLs against the archive, the second answer first: the
    bar is printed before the loop awaits, then both GETs go out. *)
Example run_of_two :
  map (fun ev => match ev with
                 | EvSessionOpen => 0 | EvPost _ _ _ => 1 | EvPrintBar _ _ => 2
                 | EvGet _ => 3 | EvAwaited _ => 4 | EvFileWrite _ _ => 5
                 | EvLog _ _ => 6 | EvPrintNewline => 7 | EvSessionClose => 8
                 end)
      (events (fetch Sample.archive [0%nat; 1%nat] [1%nat; 0%nat]
                 Sample.two_urls Sample.options
                 (progress Sample.options Sample.two_urls)))
  = [0; 1; 2; 3; 3; 6; 4; 5; 6; 2; 7; 6; 4; 5; 6; 8].
Proof. vm_compute. reflexivity. Qed.

(** C5: in every run the session is opened, the login is posted, and the
    session is closed last; between the login and the closing there is no
    other event of the session, so the login happens once and the closing
    once; every GET and every outcome handed to the loop lies after the
    login and before the closing. *)
Theorem session_frames_the_fetches
  (w : World) (started order : list nat) (urls : list str) (options : Options)
  (pb : option ProgressBar) :
  exists inner,
    events (fetch w started order urls options pb)
    = EvSessionOpen :: EvPost AUTH_URL (username options) (password options)
        :: inner ++ [EvSessionClose]
    /\ Forall (fun ev => ~ session_event ev) inner
    /\ forall pre ev post,
         events (fetch w started order urls options pb) = pre ++ ev :: post ->
         (exists u, ev = EvGet u) \/ (exists i, ev = EvAwaited i) ->
         exists pre' post',
           pre = EvSessionOpen
                   :: EvPost AUTH_URL (username options) (password options) :: pre'
           /\ post = post' ++ [EvSessionClose].
Proof.
  assert (Hframe : exists inner,
    events (fetch w started order urls options pb)
    = EvSessionOpen :: EvPost AUTH_URL (username options) (password options)
        :: inner ++ [EvSessionClose]
    /\ Forall (fun ev => ~ session_event ev) inner).
  { rewrite fetch_unfold. cbv zeta.
    destruct (tasks_task_events w options urls started order) as [Htasks Hstart].
    destruct (fetch_loop_general w _ Htasks pb 0 _ Hstart) as (Hs & _).
    destruct (post w) as [[]|e].
    - eexists. split; [reflexivity|exact Hs].
    - exists []. split; [reflexivity|constructor]. }
  destruct Hframe as (inner & Hev & Hinner).
  exists inner. split; [exact Hev|]. split; [exact Hinner|].
  intros pre ev post Hsplit Hkind. rewrite Hev in Hsplit.
  destruct (inside_frame _ _ _ _ _ _ _ Hsplit) as (pre' & post' & -> & -> & _);
    try (destruct Hkind as [[? ->]|[? ->]]; discriminate).
  exists pre', post'. split; reflexivity.
Qed.

(** C8: across a run the bar is printed for strictly growing positions and
    the stored count never decreases; after a call with
    [iteration == total] every further call prints nothing and leaves the
    bar as it is; so over any sequence of calls the full bar is printed at
    most once.  It is printed exactly once when such a call is made on a
    bar that is not finished, counts at least one item, has a number of
    decimals that [format] takes as a precision, and stays within the
    limits of the machine.  A bar with a total of zero or with decimals
    that are no precision raises in every call and never prints. *)
Theorem progress_completes_once :
  (forall w started order urls options pb,
     StronglySorted Z.lt (printed (events (fetch w started order urls options pb))))
  /\ (forall self calls,
        iteration (snd (update_calls self calls)) = iteration self)
  /\ (forall self before after,
        let done := snd (update_calls self (before ++ [total self])) in
        update_calls done after = ([], done))
  /\ (forall self calls,
        (full_bars (total self) (fst (update_calls self calls)) <= 1)%nat)
  /\ (forall self calls,
        finished self = false -> total self <> 0 ->
        0 <= decimals self <= INT_MAX -> within_limits self ->
        In (total self) calls ->
        full_bars (total self) (fst (update_calls self calls)) = 1%nat)
  /\ (forall self calls,
        total self = 0 \/ decimals self < 0 \/ INT_MAX < decimals self ->
        fst (update_calls self calls) = []
        /\ forall iteration,
             finished self = false ->
             exists e, result (ProgressBar_update self iteration) = Raise e).
Proof.
  split; [|split; [|split; [|split; [|split]]]].
  - intros w started order urls options pb. rewrite fetch_unfold. cbv zeta.
    destruct (tasks_task_events w options urls started order) as [Htasks Hstart].
    destruct (fetch_loop_general w _ Htasks pb 0 _ Hstart) as (_ & Hp & _).
    destruct (post w) as [[]|e]; cbn [events fst].
    + change (EvSessionOpen :: EvPost AUTH_URL (username options) (password options)
                :: ?l) with ([EvSessionOpen;
                EvPost AUTH_URL (username options) (password options)] ++ l).
      rewrite !printed_app. simpl. rewrite app_nil_r. exact Hp.
    + simpl. constructor.
  - apply update_calls_iteration.
  - intros self before after done. apply inert_update_calls.
    subst done. rewrite update_calls_app. cbn [snd update_calls].
    set (mid := snd (update_calls self before)).
    assert (Ht : total mid = total self) by apply update_calls_total.
    rewrite <- Ht. apply after_update_total_inert.
  - apply full_bars_at_most_once.
  - intros self calls Hf Ht Hd _ Hin. apply full_bars_exactly_once; [|exact Hin].
    intros [H|[e H]]; [congruence|].
    assert (Hok : ProgressBar_percent self 0 = Ok tt)
      by (apply ProgressBar_percent_ok; split; assumption).
    rewrite H in Hok. discriminate.
  - intros self calls Hbad.
    assert (Hraise : exists e, forall it, ProgressBar_percent self it = Raise e).
    { destruct (ProgressBar_percent self 0) as [[]|e] eqn:Hp.
      - apply ProgressBar_percent_ok in Hp. lia.
      - exists e. intros it. rewrite <- Hp. reflexivity. }
    split.
    + rewrite inert_update_calls; [reflexivity|right; exact Hraise].
    + intros it Hf. destruct Hraise as [e He]. exists e.
      rewrite ProgressBar_update_unfold, Hf, He. reflexivity.
Qed.

Lemma progress_completes_once_witness :
  full_bars 3 (fst (update_calls (ProgressBar_init 3 (lit "Progress:")
                                    (lit "Complete") 50) [1; 2; 3; 3; 1]))
  = 1%nat.
Proof.
  apply (proj1 (proj2 (proj2 (proj2 (proj2 progress_completes_once))))
           (ProgressBar_init 3 (lit "Progress:") (lit "Complete") 50)
           [1; 2; 3; 3; 1]).
  - reflexivity.
  - simpl. lia.
  - unfold INT_MAX. simpl. lia.
  - vm_compute. split; [reflexivity|discriminate].
  - simpl. tauto.
Defined.

(** A result of [None] was logged by the task that returned it. *)
Lemma get_digest_none_logged (w : World) (options : Options) (url0 : str) :
  result (get_digest w options url0) = Ok None ->
  exists lvl m, In (EvLog lvl m) (events (get_digest w options url0)).
Proof.
  rewrite get_digest_unfold.
  destruct (get w url0) as [response|e]; [|discriminate].
  destruct (Response_text response) as [body|e].
  2:{ intros _. eexists _, _. right. left. reflexivity. }
  destruct (contains MARKER body && (len body <? 100)).
  { intros _. eexists _, _. right. left. reflexivity. }
  destruct (status response =? 200).
  2:{ intros _. eexists _, _. right. left. reflexivity. }
  destruct (url_to_filename (url response)); discriminate.
Qed.

Lemma written_fetch (w : World) (started order : list nat) (urls : list str)
  (options : Options) (pb : option ProgressBar) :
  written (events (fetch w started order urls options pb)) =
  match post w with
  | Ok _ => written (events (fetch_loop w pb 0
                      (flat_map task_start
                         (scheduled (map (get_digest w options) urls) started))
                      (as_completed (map (get_digest w options) urls) order)))
  | Raise _ => []
  end.
Proof.
  rewrite fetch_unfold. cbv zeta. destruct (post w) as [[]|e]; [|reflexivity].
  cbn [events fst].
  change (EvSessionOpen :: EvPost AUTH_URL (username options) (password options)
            :: ?l) with ([EvSessionOpen;
            EvPost AUTH_URL (username options) (password options)] ++ l).
  rewrite !written_app. simpl. apply app_nil_r.
Qed.

Lemma awaited_fetch (w : World) (started order : list nat) (urls : list str)
  (options : Options) (pb : option ProgressBar) :
  awaited (events (fetch w started order urls options pb)) =
  match post w with
  | Ok _ => awaited (events (fetch_loop w pb 0
                      (flat_map task_start
                         (scheduled (map (get_digest w options) urls) started))
                      (as_completed (map (get_digest w options) urls) order)))
  | Raise _ => []
  end.
Proof.
  rewrite fetch_unfold. cbv zeta. destruct (post w) as [[]|e]; [|reflexivity].
  cbn [events fst].
  change (EvSessionOpen :: EvPost AUTH_URL (username options) (password options)
            :: ?l) with ([EvSessionOpen;
            EvPost AUTH_URL (username options) (password options)] ++ l).
  rewrite !awaited_app. simpl. apply app_nil_r.
Qed.

(** C4 as stated does not hold: both fetches of this run yield a pair, so
    K is 2, but the disk refuses the file of June, which completes second;
    the exception ends the loop and one file is written. *)
Lemma refused_write_leaves_fewer_files :
  let tasks := map (get_digest Sample.june_locked Sample.options) Sample.two_urls in
  let run := fetch Sample.june_locked [0%nat; 1%nat] [1%nat; 0%nat]
               Sample.two_urls Sample.options
               (progress Sample.options Sample.two_urls) in
  Permutation [1%nat; 0%nat] (seq 0 (List.length Sample.two_urls))
  /\ List.length (successes tasks) = 2%nat
  /\ List.length (written (events run)) = 1%nat
  /\ result run = Raise OSError.
Proof.
  cbv zeta. split; [apply perm_swap|].
  split; [|split]; vm_compute; reflexivity.
Qed.

(** C4, amended: for every run in which the login and every fetch return
    and no write fails, over N candidate URLs of which K fetches yield a
    pair, the loop awaits all N outcomes and writes exactly the K pairs,
    in completion order, whatever that order is; an outcome of [None]
    (empty or error) was logged by its fetch and no file is written for
    it. *)
Theorem fetch_writes_every_success
  (w : World) (started order : list nat) (urls : list str) (options : Options) :
  let tasks := map (get_digest w options) urls in
  let run := fetch w started order urls options (progress options urls) in
  Permutation order (seq 0 (List.length urls)) ->
  post w = Ok tt ->
  (forall t, In t tasks -> exists r, result t = Ok r) ->
  (forall path body, In (path, body) (successes tasks) ->
                     disk_accepts w path body = true) ->
  result run = Ok tt
  /\ awaited (events run) = positions 0 (List.length urls)
  /\ written (events run) = successes (as_completed tasks order)
  /\ Permutation (written (events run)) (successes tasks)
  /\ List.length (written (events run)) = List.length (successes tasks)
  /\ (forall t, In t tasks -> result t = Ok None ->
        exists lvl m, In (EvLog lvl m) (events t)).
Proof.
  intros tasks run Hperm Hpost Hret Hdisk.
  assert (Hp : Permutation (as_completed tasks order) tasks).
  { apply as_completed_perm. unfold tasks. rewrite length_map. exact Hperm. }
  destruct (tasks_task_events w options urls started order) as [Htasks Hstart].
  fold tasks in Htasks, Hstart.
  assert (Hloop : forall pb, sound_bar pb \/ tasks = [] ->
            let loop := fetch_loop w pb 0
                          (flat_map task_start (scheduled tasks started))
                          (as_completed tasks order) in
            result loop = Ok tt
            /\ written (events loop) = successes (as_completed tasks order)
            /\ awaited (events loop)
               = positions 0 (List.length (as_completed tasks order))).
  { intros pb [Hs|Hnil]; cbv zeta.
    - apply fetch_loop_ok; try assumption.
      + intros t Ht. apply Hret. eapply Permutation_in; eassumption.
      + intros path body Hin. apply Hdisk.
        eapply Permutation_in; [apply successes_perm; exact Hp|exact Hin].
    - rewrite Hnil, (as_completed_nil order). repeat split. }
  destruct (Hloop (progress options urls)) as (Hr & Hw & Ha).
  { destruct urls as [|u urls'].
    - right. reflexivity.
    - left. apply progress_sound. discriminate. }
  assert (Hwritten : written (events run) = successes (as_completed tasks order)).
  { unfold run. rewrite written_fetch, Hpost. exact Hw. }
  split; [|split; [|split; [|split; [|split]]]].
  - unfold run. rewrite fetch_unfold. cbv zeta. rewrite Hpost. exact Hr.
  - unfold run. rewrite awaited_fetch, Hpost. fold tasks. rewrite Ha.
    rewrite (Permutation_length Hp). unfold tasks. rewrite length_map. reflexivity.
  - exact Hwritten.
  - rewrite Hwritten. apply successes_perm. exact Hp.
  - rewrite Hwritten. apply Permutation_length, successes_perm. exact Hp.
  - intros t Ht Hnone. unfold tasks in Ht. rewrite in_map_iff in Ht.
    destruct Ht as (u & <- & _). apply get_digest_none_logged. exact Hnone.
Qed.

Lemma fetch_writes_every_success_witness :
  let tasks := map (get_digest Sample.archive Sample.options) Sample.two_urls in
  let run := fetch Sample.archive [0%nat; 1%nat] [1%nat; 0%nat]
               Sample.two_urls Sample.options
               (progress Sample.options Sample.two_urls) in
  result run = Ok tt
  /\ awaited (events run) = positions 0 (List.length Sample.two_urls)
  /\ written (events run) = successes (as_completed tasks [1%nat; 0%nat])
  /\ Permutation (written (events run)) (successes tasks)
  /\ List.length (written (events run)) = List.length (successes tasks)
  /\ (forall t, In t tasks -> result t = Ok None ->
        exists lvl m, In (EvLog lvl m) (events t)).
Proof.
  apply (fetch_writes_every_success Sample.archive [0%nat; 1%nat] [1%nat; 0%nat]
           Sample.two_urls Sample.options).
  - apply perm_swap.
  - reflexivity.
  - intros t [<-|[<-|[]]]; eexists; vm_compute; reflexivity.
  - intros path body _. reflexivity.
Defined.




(** C10: every path that [get_digest] returns, and so every file a run
    writes, lies right under the output directory made absolute, and its
    name starts with [wggf-monthly-digest-] and ends with [.html]. *)
Theorem digests_lie_in_out_dir :
  (forall w options url0 file content,
     result (get_digest w options url0) = Ok (Some (file, content)) ->
     well_placed w options file)
  /\ (forall w started order urls options pb file content,
        In (file, content) (written (events (fetch w started order urls options pb))) ->
        well_placed w options file).
Proof.
  split; [exact get_digest_well_placed|].
  intros w started order urls options pb file content Hin.
  rewrite written_fetch in Hin. destruct (post w) as [[]|e]; [|destruct Hin].
  destruct (tasks_task_events w options urls started order) as [Htasks Hstart].
  destruct (fetch_loop_general w _ Htasks pb 0 _ Hstart) as (_ & _ & _ & Hincl).
  apply Hincl in Hin. apply successes_In in Hin. destruct Hin as (t & Ht & Hr).
  apply as_completed_In in Ht. rewrite in_map_iff in Ht.
  destruct Ht as (u & <- & _). exact (get_digest_well_placed _ _ _ _ _ Hr).
Qed.

Lemma digests_lie_in_out_dir_witness :
  well_placed Sample.archive Sample.options
    (mkPath true [lit "home"; lit "user"; lit "archive";
                  lit "wggf-monthly-digest-2024-06.html"]).
Proof.
  apply (proj1 digests_lie_in_out_dir Sample.archive Sample.options
           (data_url 2024 6) _ (lit "<html>digest</html>")).
  vm_compute. reflexivity.
Defined.

(* ===================================================================== *)
(** * Further properties: strings, file names, candidate URLs *)
(* ===================================================================== *)

Section MoreFilenames.

Lemma join_cons (sep p q : str) (rest : list str) :
  join sep (p :: q :: rest) = p ++ sep ++ join sep (q :: rest).
Proof. reflexivity. Qed.

Lemma lit_inj (a b : string) : lit a = lit b -> a = b.
Proof.
  unfold lit. intros H.
  rewrite <- (string_of_list_ascii_of_string a), <- (string_of_list_ascii_of_string b).
  f_equal. revert H.
  generalize (list_ascii_of_string a) (list_ascii_of_string b).
  induction l as [|x l IH]; intros [|y l']; simpl; intros H; try discriminate;
    [reflexivity|].
  injection H as Hxy Hl. f_equal; [|apply IH; exact Hl].
  apply N2Z.inj in Hxy.
  rewrite <- (ascii_N_embedding x), <- (ascii_N_embedding y), Hxy. reflexivity.
Qed.

Lemma str_of_int_inj (a b : Z) : str_of_int a = str_of_int b -> a = b.
Proof.
  unfold str_of_int. intros H. apply lit_inj in H.
  apply DecimalZ.to_int_inj.
  pose proof (NilEmpty.isi (Z.to_int a)) as Ha.
  pose proof (NilEmpty.isi (Z.to_int b)) as Hb.
  rewrite H in Ha. rewrite Ha in Hb. injection Hb as ->. reflexivity.
Qed.

Lemma format_02d_inj (M M' : Z) :
  1 <= M <= 12 -> 1 <= M' <= 12 -> format_02d M = format_02d M' -> M = M'.
Proof.
  intros H H'.
  assert (HM : M = 1 \/ M = 2 \/ M = 3 \/ M = 4 \/ M = 5 \/ M = 6 \/ M = 7
               \/ M = 8 \/ M = 9 \/ M = 10 \/ M = 11 \/ M = 12) by lia.
  assert (HM' : M' = 1 \/ M' = 2 \/ M' = 3 \/ M' = 4 \/ M' = 5 \/ M' = 6
                \/ M' = 7 \/ M' = 8 \/ M' = 9 \/ M' = 10 \/ M' = 11 \/ M' = 12)
    by lia.
  clear H H'.
  repeat (destruct HM as [->|HM]); try subst M;
    repeat (destruct HM' as [->|HM']); try subst M';
    intros E; try reflexivity; vm_compute in E; discriminate E.
Qed.

(** Two strings cut at their first dash agree part by part. *)
Lemma first_dash_unique (y y' m m' : str) :
  ~ In 45 y -> ~ In 45 y' ->
  y ++ 45 :: m = y' ++ 45 :: m' -> y = y' /\ m = m'.
Proof.
  intros Hy Hy' E.
  assert (S : split_go [45] O (y ++ 45 :: m) = split_go [45] O (y' ++ 45 :: m'))
    by (rewrite E; reflexivity).
  rewrite !split_go_char_first in S by assumption.
  injection S as -> _. apply app_inv_head in E. injection E as ->.
  split; reflexivity.
Qed.

Lemma length_flat_map_const {A B : Type} (f : A -> list B) (k : nat) (l : list A) :
  (forall x, List.length (f x) = k) ->
  List.length (flat_map f l) = (k * List.length l)%nat.
Proof.
  intros H. induction l as [|x l IH]; simpl; [lia|].
  rewrite length_app, H, IH. lia.
Qed.

End MoreFilenames.

(** X1: the candidate URLs of a run are exactly the URLs of the months 1
    to 12 of the years 2000 to the current year, twelve per year; a
    current year before 2000 gives none. *)
Theorem candidate_urls (now_year : Z) :
  (forall u, In u (all_urls now_year) <->
     exists Y M, 2000 <= Y <= now_year /\ 1 <= M <= 12 /\ u = data_url Y M)
  /\ len (all_urls now_year) = 12 * Z.max 0 (now_year - 1999).
Proof.
  split; [intros u; apply all_urls_In|].
  unfold all_urls, range, len.
  replace (Z.to_nat (now_year + 1 - 2000)) with (Z.to_nat (now_year - 1999))
    by lia.
  replace (Z.max 0 (now_year - 1999)) with (Z.of_nat (Z.to_nat (now_year - 1999)))
    by lia.
  rewrite (length_flat_map_const _ 12%nat).
  - rewrite length_map, length_seq. lia.
  - intros Y. rewrite !length_map, length_seq. reflexivity.
Qed.

(** X2: two candidate months with the same file name are the same month:
    [url_to_filename] after [data_url] is injective, so the candidate
    URLs of a run are pairwise distinct and so are the file names derived
    from them. *)
Theorem candidate_filenames_distinct :
  (forall Y M Y' M',
     0 <= Y -> 0 <= Y' -> 1 <= M <= 12 -> 1 <= M' <= 12 ->
     url_to_filename (data_url Y M) = url_to_filename (data_url Y' M') ->
     Y = Y' /\ M = M')
  /\ (forall now_year, NoDup (map url_to_filename (all_urls now_year))).
Proof.
  assert (Hinj : forall Y M Y' M',
     0 <= Y -> 0 <= Y' -> 1 <= M <= 12 -> 1 <= M' <= 12 ->
     url_to_filename (data_url Y M) = url_to_filename (data_url Y' M') ->
     Y = Y' /\ M = M').
  { intros Y M Y' M' HY HY' HM HM' E.
    rewrite !url_to_filename_data_url in E by assumption.
    injection E as E.
    assert (H45 : forall n, 0 <= n -> ~ In 45 (str_of_int n)).
    { intros n Hn. apply (digits_exclude _ _ (str_of_int_digits n Hn)).
      unfold is_digit. lia. }
    destruct (first_dash_unique _ _ _ _ (H45 Y HY) (H45 Y' HY') E) as [Ey Em].
    split; [apply str_of_int_inj; exact Ey|apply format_02d_inj; assumption]. }
  split; [exact Hinj|].
  intros now_year. apply NoDup_map_NoDup_ForallPairs.
  - intros u u' Hu Hu' E. apply all_urls_In in Hu, Hu'.
    destruct Hu as (Y & M & HY & HM & ->). destruct Hu' as (Y' & M' & HY' & HM' & ->).
    destruct (Hinj Y M Y' M') as [-> ->]; try assumption; try lia. reflexivity.
  - unfold all_urls. rewrite flat_map_concat_map. apply NoDup_concat.
    + rewrite Forall_forall. intros l Hl. rewrite in_map_iff in Hl.
      destruct Hl as (Y & <- & HY). apply range_In in HY.
      apply NoDup_map_NoDup_ForallPairs.
      * intros M M' HM HM' E. apply range_In in HM, HM'.
        assert (EF : url_to_filename (data_url Y M) = url_to_filename (data_url Y M'))
          by (rewrite E; reflexivity).
        destruct (Hinj Y M Y M' ltac:(lia) ltac:(lia) ltac:(lia) ltac:(lia) EF)
          as [_ HMM].
        exact HMM.
      * unfold range. apply NoDup_map_NoDup_ForallPairs; [|apply seq_NoDup].
        intros i j _ _ Hij. lia.
    + assert (G : forall years : list Z,
                NoDup years -> (forall Y, In Y years -> 0 <= Y) ->
                ForallOrdPairs
                  (fun l1 l2 : list str => forall a, In a l1 -> ~ In a l2)
                  (map (fun year => map (fun month => data_url year month)
                                        (range 1 13)) years)).
      { induction 1 as [|Y years HnY _ IH]; intros Hpos; [constructor|].
        cbn [map]. constructor; [|apply IH; intros; apply Hpos; right; assumption].
        rewrite Forall_forall. intros l Hl u Hu Hu'.
        rewrite in_map_iff in Hl. destruct Hl as (Y' & <- & HY').
        rewrite in_map_iff in Hu, Hu'.
        destruct Hu as (M & <- & HM). destruct Hu' as (M' & E & HM').
        apply range_In in HM, HM'.
        assert (EF : url_to_filename (data_url Y' M')
                     = url_to_filename (data_url Y M))
          by (rewrite E; reflexivity).
        pose proof (Hpos Y (or_introl eq_refl)) as HY0.
        pose proof (Hpos Y' (or_intror HY')) as HY0'.
        destruct (Hinj Y' M' Y M HY0' HY0 ltac:(lia) ltac:(lia) EF) as [HYY _].
        subst Y'. contradiction. }
      apply G.
      * unfold range. apply NoDup_map_NoDup_ForallPairs; [|apply seq_NoDup].
        intros i j _ _ Hij. lia.
      * intros Y HY. apply range_In in HY. lia.
Qed.

Lemma candidate_filenames_distinct_witness :
  url_to_filename (data_url 2024 6) <> url_to_filename (data_url 2024 7)
  /\ NoDup (map url_to_filename (all_urls 2001)).
Proof.
  split.
  - intros E.
    destruct (proj1 candidate_filenames_distinct 2024 6 2024 7
                ltac:(lia) ltac:(lia) ltac:(lia) ltac:(lia) E) as [_ H].
    discriminate H.
  - apply (proj2 candidate_filenames_distinct 2001).
Defined.

(** Acceptance by [url_to_filename], and the one exception it raises. *)
Lemma url_to_filename_raises_without_dash_aux (u : str) :
  (In 45 (last_segment u) -> exists stem, url_to_filename u = Ok stem)
  /\ (forall e, url_to_filename u = Raise e -> e = IndexError).
Proof.
  split; [apply url_to_filename_accepts|].
  intros e He.
  destruct (in_dec Z.eq_dec 45 (last_segment u)) as [Hin|Hnin].
  - apply url_to_filename_accepts in Hin. destruct Hin as [stem Hs].
    rewrite Hs in He. discriminate He.
  - unfold url_to_filename, split, last_segment in *.
    change (lit "/") with [47] in *. change (lit "-") with [45] in He.
    cbv iota in He.
    rewrite (index_last _ ([] : str)) in He by apply split_go_nonempty.
    rewrite (split_go_char_absent 45 _ Hnin) in He.
    injection He as <-. reflexivity.
Qed.

(** X3: [url_to_filename] returns a name exactly when the last path
    segment of the URL contains a dash; on every other URL it raises
    [IndexError], and it raises nothing else. *)
Theorem url_to_filename_raises_without_dash (u : str) :
  (In 45 (last_segment u) -> exists stem, url_to_filename u = Ok stem)
  /\ (~ In 45 (last_segment u) -> url_to_filename u = Raise IndexError)
  /\ (forall e, url_to_filename u = Raise e -> e = IndexError).
Proof.
  assert (Hno : ~ In 45 (last_segment u) -> url_to_filename u = Raise IndexError).
  { intros Hno. unfold url_to_filename, split, last_segment in *.
    change (lit "/") with [47] in *. change (lit "-") with [45]. cbv iota.
    rewrite (index_last _ ([] : str)) by apply split_go_nonempty.
    rewrite (split_go_char_absent 45 _ Hno). reflexivity. }
  split; [apply url_to_filename_accepts|]. split; [exact Hno|].
  intros e He.
  destruct (in_dec Z.eq_dec 45 (last_segment u)) as [Hin|Hnin].
  - apply url_to_filename_accepts in Hin. destruct Hin as [stem Hs].
    rewrite Hs in He. discriminate He.
  - rewrite (Hno Hnin) in He. injection He as <-. reflexivity.
Qed.

Lemma url_to_filename_raises_without_dash_witness :
  url_to_filename AUTH_URL = Raise IndexError
  /\ exists stem, url_to_filename (lit "https://host/a/b/1999-xyz") = Ok stem.
Proof.
  split.
  - apply (proj1 (proj2 (url_to_filename_raises_without_dash AUTH_URL))).
    vm_compute. intros H. repeat (destruct H as [H|H]; [discriminate H|]). exact H.
  - apply (proj1 (url_to_filename_raises_without_dash
                    (lit "https://host/a/b/1999-xyz"))).
    vm_compute. tauto.
Defined.

(** X4: only the last path segment of the URL takes part in the name:
    [url_to_filename] gives for a URL what it gives for its last segment
    alone, so scheme, host and directories are never looked at. *)
Theorem url_to_filename_reads_last_segment (u : str) :
  url_to_filename u = url_to_filename (last_segment u)
  /\ forall a,
       url_to_filename (a ++ lit "/" ++ last_segment u) = url_to_filename u.
Proof.
  assert (Hseg : ~ In 47 (last_segment u)).
  { unfold last_segment. change (lit "/") with [47].
    pose proof (split_go_char_free 47 u) as Hfree. rewrite Forall_forall in Hfree.
    apply Hfree.
    pose proof (split_go_nonempty [47] O u) as Hne.
    destruct (exists_last Hne) as (l & x & ->). rewrite last_last.
    apply in_or_app. right. left. reflexivity. }
  assert (Hlast : forall v, url_to_filename v =
            match split (lit "-") (last_segment v) with
            | Raise e => Raise e
            | Ok fields =>
                match index fields 0 with
                | Raise e => Raise e
                | Ok year_str =>
                    match index fields 1 with
                    | Raise e => Raise e
                    | Ok field1 =>
                        Ok (lit "wggf-monthly-digest-" ++ year_str ++ lit "-"
                              ++ replace (lit "f.html") [] field1)
                    end
                end
            end).
  { intros v. unfold url_to_filename, last_segment, split at 1.
    change (lit "/") with [47]. cbv iota.
    rewrite (index_last _ ([] : str)) by apply split_go_nonempty. reflexivity. }
  assert (Hidem : forall s, ~ In 47 s -> last_segment s = s).
  { intros s Hs. unfold last_segment. change (lit "/") with [47].
    rewrite split_go_char_absent by exact Hs. reflexivity. }
  split.
  - rewrite (Hlast u), (Hlast (last_segment u)), (Hidem _ Hseg). reflexivity.
  - intros a. rewrite (Hlast u), (Hlast (a ++ lit "/" ++ last_segment u)).
    replace (last_segment (a ++ lit "/" ++ last_segment u)) with (last_segment u);
      [reflexivity|].
    unfold last_segment at 2. change (lit "/") with [47].
    change ([47] ++ ?s) with (47 :: s).
    rewrite split_go_char_last. fold (last_segment (last_segment u)).
    symmetry. apply Hidem. exact Hseg.
Qed.

(** X15: splitting at a one-character separator loses nothing: joining
    the pieces with the separator gives the string back, no piece holds
    the separator, and there is one piece more than there are
    separators in the string. *)
Theorem split_join_round_trip (c : Z) (s : str) :
  join [c] (split_go [c] O s) = s
  /\ Forall (fun piece => ~ In c piece) (split_go [c] O s)
  /\ List.length (split_go [c] O s) = S (count_occ Z.eq_dec s c).
Proof.
  split; [|split; [apply split_go_char_free|]].
  - induction s as [|x s IH]; [reflexivity|].
    rewrite split_go_char_cons.
    pose proof (split_go_nonempty [c] O s) as Hne.
    destruct (Z.eqb_spec c x) as [->|Hcx].
    + destruct (split_go [x] O s) as [|h t] eqn:E; [contradiction|].
      rewrite join_cons, IH. reflexivity.
    + destruct (split_go [c] O s) as [|h t] eqn:E; [contradiction|].
      destruct t as [|h' t].
      * simpl in *. rewrite IH. reflexivity.
      * rewrite join_cons in *. rewrite <- IH. reflexivity.
  - induction s as [|x s IH]; [reflexivity|].
    rewrite split_go_char_cons. simpl count_occ.
    pose proof (split_go_nonempty [c] O s) as Hne.
    destruct (Z.eqb_spec c x) as [->|Hcx].
    + destruct (Z.eq_dec x x); [|contradiction]. simpl. rewrite IH. reflexivity.
    + destruct (Z.eq_dec x c); [congruence|].
      destruct (split_go [c] O s) as [|h t]; [contradiction|]. exact IH.
Qed.

(* ===================================================================== *)
(** * Further properties: the bar *)
(* ===================================================================== *)

Lemma len_repeat_str (s : str) (n : Z) :
  len (repeat_str s n) = len s * Z.max 0 n.
Proof.
  unfold repeat_str, len.
  replace (Z.max 0 n) with (Z.of_nat (Z.to_nat n)) by lia.
  induction (Z.to_nat n) as [|k IH]; simpl; [lia|].
  rewrite length_app. lia.
Qed.

(** X10: for a position between 0 and [total], the bar is made of
    [length * iteration // total] copies of [fill] followed by dashes for
    the rest of its [length] cells; it is all dashes at 0 and all fill at
    [total].  Its width in characters is [length] plus [len(fill) - 1] for
    every filled cell, so it is constant only for a fill of one character.
    The fill that [__init__] stores is three characters long: the bar of
    the main block grows by two characters with every filled cell, from
    [length] to three times [length]. *)
Theorem bar_width_follows_fill (self : ProgressBar) (it : Z) :
  0 < total self -> 0 <= length self -> 0 <= it <= total self ->
  let filled := length self * it / total self in
  0 <= filled <= length self
  /\ ProgressBar_bar self it
     = repeat_str (fill self) filled ++ repeat_str (lit "-") (length self - filled)
  /\ len (ProgressBar_bar self it) = length self + (len (fill self) - 1) * filled
  /\ ProgressBar_bar self 0 = repeat_str (lit "-") (length self)
  /\ ProgressBar_bar self (total self) = repeat_str (fill self) (length self)
  /\ (forall total0 prefix0 suffix0 length0,
        self = ProgressBar_init total0 prefix0 suffix0 length0 ->
        len (ProgressBar_bar self it) = length0 + 2 * (length0 * it / total0)
        /\ len (ProgressBar_bar self 0) = length0
        /\ len (ProgressBar_bar self total0) = 3 * length0).
Proof.
  intros Ht Hl Hit filled.
  assert (Hq : 0 <= filled <= length self).
  { subst filled. split.
    - apply Z.div_pos; [nia|lia].
    - apply Z.div_le_upper_bound; [lia|nia]. }
  assert (Hlen : forall i, 0 <= length self * i / total self <= length self ->
            len (ProgressBar_bar self i)
            = length self + (len (fill self) - 1) * (length self * i / total self)).
  { intros i Hi. unfold ProgressBar_bar. rewrite len_app, !len_repeat_str.
    change (len (lit "-")) with 1.
    rewrite !Z.max_r by lia. ring. }
  split; [exact Hq|]. split; [reflexivity|]. split; [apply Hlen; exact Hq|].
  assert (H0 : length self * 0 / total self = 0)
    by (rewrite Z.mul_0_r; apply Z.div_0_l; lia).
  assert (H1 : length self * total self / total self = length self)
    by (apply Z.div_mul; lia).
  split; [|split].
  - unfold ProgressBar_bar. rewrite H0, Z.sub_0_r. reflexivity.
  - unfold ProgressBar_bar. rewrite H1, Z.sub_diag.
    unfold repeat_str at 2. simpl. apply app_nil_r.
  - intros total0 prefix0 suffix0 length0 Hself.
    assert (Hfill : len (fill self) = 3) by (rewrite Hself; reflexivity).
    assert (Htot : total self = total0) by (rewrite Hself; reflexivity).
    assert (Hlength : length self = length0) by (rewrite Hself; reflexivity).
    rewrite <- Htot, <- Hlength. split; [|split].
    + rewrite Hlen by exact Hq. rewrite Hfill. lia.
    + rewrite Hlen by (rewrite H0; lia). rewrite H0. lia.
    + rewrite Hlen by (rewrite H1; lia). rewrite H1, Hfill. lia.
Qed.

Lemma bar_width_follows_fill_witness :
  let self := ProgressBar_init 300 (lit "Progress:") (lit "Complete") 50 in
  len (ProgressBar_bar self 150) = 100
  /\ len (ProgressBar_bar self 0) = 50
  /\ len (ProgressBar_bar self 300) = 150
  /\ ProgressBar_bar self 6
     = [226; 8211; 710] ++ repeat_str (lit "-") 49.
Proof.
  cbv zeta.
  destruct (bar_width_follows_fill
              (ProgressBar_init 300 (lit "Progress:") (lit "Complete") 50) 150)
    as (_ & _ & _ & _ & _ & Hinit).
  - simpl. lia.
  - simpl. lia.
  - simpl. lia.
  - destruct (Hinit 300 (lit "Progress:") (lit "Complete") 50 eq_refl)
      as (H150 & H0 & H300).
    split; [exact H150|]. split; [exact H0|]. split; [exact H300|].
    vm_compute. reflexivity.
Defined.

(* ===================================================================== *)
(** * Further properties: [get_digest] *)
(* ===================================================================== *)

(** X5: [get_digest] returns a pair exactly when the GET returned a
    response whose payload could be read, whose decoded body is not a
    placeholder, whose status is 200 and whose final URL
    [url_to_filename] accepts; the pair is then the decoded body and the
    file named after the final URL under the output directory. *)
Theorem get_digest_returns_pair_iff
  (w : World) (options : Options) (url0 : str) (path : Path) (body : str) :
  result (get_digest w options url0) = Ok (Some (path, body)) <->
  exists response stem,
    get w url0 = Ok response
    /\ Response_text response = Ok body
    /\ ~ ((exists before after, body = before ++ MARKER ++ after) /\ len body < 100)
    /\ status response = 200
    /\ url_to_filename (url response) = Ok stem
    /\ path = absolute (cwd w) (path_join (out_dir options) (stem ++ lit ".html")).
Proof.
  rewrite get_digest_unfold. split.
  - destruct (get w url0) as [response|e]; [|discriminate].
    destruct (Response_text response) as [body'|e] eqn:Ht; [|discriminate].
    destruct (contains MARKER body' && (len body' <? 100)) eqn:He; [discriminate|].
    destruct (Z.eqb_spec (status response) 200) as [Hs|Hs]; [|discriminate].
    destruct (url_to_filename (url response)) as [stem|e] eqn:Hu; [|discriminate].
    intros [= <- <-]. exists response, stem.
    repeat split; try assumption; try reflexivity.
    intros [Hm Hl]. apply contains_spec in Hm. apply Z.ltb_lt in Hl.
    rewrite Hm, Hl in He. discriminate He.
  - intros (response & stem & -> & -> & He & -> & -> & ->).
    destruct (contains MARKER body && (len body <? 100)) eqn:E; [|reflexivity].
    exfalso. apply He. apply andb_true_iff in E. destruct E as [Em El].
    split; [apply contains_spec; exact Em|apply Z.ltb_lt; exact El].
Qed.

(** X6: [get_digest] raises in two cases only: the GET itself raised, and
    that exception goes on to the caller; or a page with status 200 that
    is no placeholder came back under a final URL whose last segment has
    no dash, and the exception is [IndexError].  A payload that cannot be
    read, a placeholder and a status other than 200 never raise. *)
Theorem get_digest_raises_iff
  (w : World) (options : Options) (url0 : str) (e : Exn) :
  result (get_digest w options url0) = Raise e <->
  get w url0 = Raise e
  \/ exists response body,
       get w url0 = Ok response
       /\ Response_text response = Ok body
       /\ contains MARKER body && (len body <? 100) = false
       /\ status response = 200
       /\ ~ In 45 (last_segment (url response))
       /\ e = IndexError.
Proof.
  rewrite get_digest_unfold. split.
  - destruct (get w url0) as [response|e0]; [|intros [= <-]; left; reflexivity].
    destruct (Response_text response) as [body|e0] eqn:Ht; [|discriminate].
    destruct (contains MARKER body && (len body <? 100)) eqn:He; [discriminate|].
    destruct (Z.eqb_spec (status response) 200) as [Hs|Hs]; [|discriminate].
    destruct (url_to_filename (url response)) as [stem|e0] eqn:Hu; [discriminate|].
    intros [= <-]. right. exists response, body.
    destruct (url_to_filename_raises_without_dash_aux (url response)) as [Hacc Hexn].
    repeat split; try assumption; try reflexivity.
    + intros Hin. apply Hacc in Hin. destruct Hin as [stem Hs']. congruence.
    + apply Hexn. exact Hu.
  - intros [->|(response & body & -> & -> & -> & -> & Hno & ->)]; [reflexivity|].
    destruct (url_to_filename (url response)) as [stem|e0] eqn:Hu.
    + exfalso. apply Hno. apply url_to_filename_accepts. eauto.
    + destruct (url_to_filename_raises_without_dash_aux (url response)) as [_ Hexn].
      rewrite (Hexn _ Hu). reflexivity.
Qed.

(** X7: a placeholder body is skipped before the status is looked at:
    whatever the status and the final URL of the response, [get_digest]
    returns [None] with one debug record and no error record. *)
Theorem get_digest_skips_placeholder_at_any_status
  (w : World) (options : Options) (url0 : str) (response : Response)
  (before after : str) :
  get w url0 = Ok response ->
  Response_text response = Ok (before ++ MARKER ++ after) ->
  len (before ++ MARKER ++ after) < 100 ->
  get_digest w options url0
  = ([EvGet url0; EvLog DEBUG (SkippingEmpty url0)], Ok None).
Proof.
  intros Hget Htext Hlen. rewrite get_digest_unfold, Hget, Htext.
  assert (Hm : contains MARKER (before ++ MARKER ++ after) = true)
    by (apply contains_spec; eauto).
  apply Z.ltb_lt in Hlen. rewrite Hm, Hlen. reflexivity.
Qed.

Lemma get_digest_skips_placeholder_at_any_status_witness :
  let gone := mkResponse 500 AUTH_URL
                (Ok (lit "<html>Die Seite existiert nicht</html>")) in
  get_digest (Sample.world (fun _ => Ok gone)) Sample.options (data_url 2024 6)
  = ([EvGet (data_url 2024 6); EvLog DEBUG (SkippingEmpty (data_url 2024 6))],
     Ok None).
Proof.
  cbv zeta.
  apply (get_digest_skips_placeholder_at_any_status
           (Sample.world (fun _ =>
              Ok (mkResponse 500 AUTH_URL
                    (Ok (lit "<html>Die Seite existiert nicht</html>")))))
           Sample.options (data_url 2024 6)
           (mkResponse 500 AUTH_URL
              (Ok (lit "<html>Die Seite existiert nicht</html>")))
           (lit "<html>Die Seite ") (lit "</html>")).
  - reflexivity.
  - vm_compute. reflexivity.
  - vm_compute. reflexivity.
Defined.

(* ===================================================================== *)
(** * Further properties: decoding and encoding *)
(* ===================================================================== *)

Section RoundTrip.

Import Utf8.

Lemma in_range_true (lo hi b : Z) : in_range lo hi b = true <-> lo <= b <= hi.
Proof. unfold in_range. rewrite andb_true_iff, !Z.leb_le. reflexivity. Qed.

Lemma in_range_false (lo hi b : Z) : in_range lo hi b = false <-> b < lo \/ hi < b.
Proof. unfold in_range. rewrite andb_false_iff, !Z.leb_gt. reflexivity. Qed.

Ltac ranges :=
  repeat match goal with
         | H : in_range _ _ _ = true |- _ => apply in_range_true in H
         | H : in_range _ _ _ = false |- _ => apply in_range_false in H
         | H : is_cont _ = true |- _ => apply in_range_true in H
         | H : is_cont _ = false |- _ => apply in_range_false in H
         end.

Ltac decide_ranges :=
  repeat match goal with
         | |- context [in_range ?lo ?hi ?b] =>
             first [ rewrite (proj2 (in_range_true lo hi b)) by lia
                   | rewrite (proj2 (in_range_false lo hi b)) by lia ]
         end.

Lemma encode_cp_one (cp : Z) :
  0 <= cp <= 127 -> encode_cp cp = Some [cp].
Proof. intros H. unfold encode_cp. decide_ranges. reflexivity. Qed.

Lemma encode_cp_two (cp : Z) :
  128 <= cp <= 2047 -> encode_cp cp = Some [192 + cp / 64; 128 + cp mod 64].
Proof. intros H. unfold encode_cp. decide_ranges. reflexivity. Qed.

Lemma encode_cp_three (cp : Z) :
  2048 <= cp <= 65535 -> cp < 55296 \/ 57343 < cp ->
  encode_cp cp = Some [224 + cp / 4096; 128 + (cp / 64) mod 64; 128 + cp mod 64].
Proof. intros H H'. unfold encode_cp. decide_ranges. reflexivity. Qed.

Lemma encode_cp_four (cp : Z) :
  65536 <= cp <= 1114111 ->
  encode_cp cp = Some [240 + cp / 262144; 128 + (cp / 4096) mod 64;
                       128 + (cp / 64) mod 64; 128 + cp mod 64].
Proof. intros H. unfold encode_cp. decide_ranges. reflexivity. Qed.

(** The bytes of a decoded sequence are the bytes of its code point. *)
Lemma encode_cp2 (b1 b2 : Z) :
  in_range 194 223 b1 = true -> is_cont b2 = true ->
  encode_cp (cp2 b1 b2) = Some [b1; b2].
Proof.
  intros H1 H2. ranges. unfold cp2.
  rewrite encode_cp_two by lia.
  do 2 f_equal; [|f_equal]; Z.div_mod_to_equations; lia.
Qed.

Lemma second_of_three_true (b1 b2 : Z) :
  in_range 224 239 b1 = true -> second_of_three b1 b2 = true ->
  128 <= b2 <= 191
  /\ (b1 = 224 -> 160 <= b2) /\ (b1 = 237 -> b2 <= 159).
Proof.
  unfold second_of_three, is_cont. intros H1 H2. ranges.
  destruct (Z.eqb_spec b1 224); [ranges; lia|].
  destruct (Z.eqb_spec b1 237); ranges; lia.
Qed.

Lemma second_of_four_true (b1 b2 : Z) :
  in_range 240 244 b1 = true -> second_of_four b1 b2 = true ->
  128 <= b2 <= 191
  /\ (b1 = 240 -> 144 <= b2) /\ (b1 = 244 -> b2 <= 143).
Proof.
  unfold second_of_four, is_cont. intros H1 H2. ranges.
  destruct (Z.eqb_spec b1 240); [ranges; lia|].
  destruct (Z.eqb_spec b1 244); ranges; lia.
Qed.

Lemma encode_cp3 (b1 b2 b3 : Z) :
  in_range 224 239 b1 = true -> second_of_three b1 b2 = true ->
  is_cont b3 = true ->
  encode_cp (cp3 b1 b2 b3) = Some [b1; b2; b3].
Proof.
  intros H1 H2 H3.
  destruct (second_of_three_true b1 b2 H1 H2) as (Hb2 & He0 & Hed).
  ranges. unfold cp3.
  rewrite encode_cp_three by lia.
  do 2 f_equal; [|f_equal; [|f_equal]]; Z.div_mod_to_equations; lia.
Qed.

Lemma encode_cp4 (b1 b2 b3 b4 : Z) :
  in_range 240 244 b1 = true -> second_of_four b1 b2 = true ->
  is_cont b3 = true -> is_cont b4 = true ->
  encode_cp (cp4 b1 b2 b3 b4) = Some [b1; b2; b3; b4].
Proof.
  intros H1 H2 H3 H4.
  destruct (second_of_four_true b1 b2 H1 H2) as (Hb2 & Hf0 & Hf4).
  ranges. unfold cp4.
  rewrite encode_cp_four by lia.
  do 2 f_equal; [|f_equal; [|f_equal; [|f_equal]]]; Z.div_mod_to_equations; lia.
Qed.

(** One step of the scan: an item and the rest of the input; a code point
    comes with the bytes it was read from. *)
Lemma scan_step (b1 : Z) (r1 : bytes) :
  exists item rest,
    scan (b1 :: r1) = item :: scan rest
    /\ (List.length rest <= List.length r1)%nat
    /\ match item with
       | Char cp => exists b, encode_cp cp = Some b /\ b1 :: r1 = b ++ rest
       | Bad _ => True
       end.
Proof.
  rewrite scan_cons.
  destruct (in_range 0 127 b1) eqn:H1.
  { exists (Char b1), r1. split; [reflexivity|]. split; [lia|].
    exists [b1]. split; [|reflexivity]. ranges. apply encode_cp_one. lia. }
  destruct (in_range 194 223 b1) eqn:H2.
  { destruct r1 as [|b2 r2]; [exists (Bad 1), []; repeat split; simpl; lia|].
    destruct (is_cont b2) eqn:C2.
    - exists (Char (cp2 b1 b2)), r2. split; [reflexivity|]. split; [simpl; lia|].
      exists [b1; b2]. split; [apply encode_cp2; assumption|reflexivity].
    - exists (Bad 1), (b2 :: r2). repeat split; simpl; lia. }
  destruct (in_range 224 239 b1) eqn:H3.
  { destruct r1 as [|b2 r2]; [exists (Bad 1), []; repeat split; simpl; lia|].
    destruct (second_of_three b1 b2) eqn:C2;
      [|exists (Bad 1), (b2 :: r2); repeat split; simpl; lia].
    destruct r2 as [|b3 r3]; [exists (Bad 2), []; repeat split; simpl; lia|].
    destruct (is_cont b3) eqn:C3.
    - exists (Char (cp3 b1 b2 b3)), r3. split; [reflexivity|]. split; [simpl; lia|].
      exists [b1; b2; b3]. split; [apply encode_cp3; assumption|reflexivity].
    - exists (Bad 2), (b3 :: r3). repeat split; simpl; lia. }
  destruct (in_range 240 244 b1) eqn:H4.
  { destruct r1 as [|b2 r2]; [exists (Bad 1), []; repeat split; simpl; lia|].
    destruct (second_of_four b1 b2) eqn:C2;
      [|exists (Bad 1), (b2 :: r2); repeat split; simpl; lia].
    destruct r2 as [|b3 r3]; [exists (Bad 2), []; repeat split; simpl; lia|].
    destruct (is_cont b3) eqn:C3;
      [|exists (Bad 2), (b3 :: r3); repeat split; simpl; lia].
    destruct r3 as [|b4 r4]; [exists (Bad 3), []; repeat split; simpl; lia|].
    destruct (is_cont b4) eqn:C4.
    - exists (Char (cp4 b1 b2 b3 b4)), r4. split; [reflexivity|].
      split; [simpl; lia|].
      exists [b1; b2; b3; b4]. split; [apply encode_cp4; assumption|reflexivity].
    - exists (Bad 3), (b4 :: r4). repeat split; simpl; lia. }
  exists (Bad 1), r1. repeat split; lia.
Qed.

(** What [strict] decodes is encoded back to the bytes it was decoded
    from. *)
Lemma strict_then_encode (n : nat) :
  forall bs : bytes, (List.length bs <= n)%nat ->
  forall s, handle strict (scan bs) = Ok s -> encode s = Some bs.
Proof.
  induction n as [|n IH]; intros bs Hlen s Hs.
  - destruct bs; [|simpl in Hlen; lia]. simpl in Hs. injection Hs as <-. reflexivity.
  - destruct bs as [|b1 r1]; [simpl in Hs; injection Hs as <-; reflexivity|].
    destruct (scan_step b1 r1) as (item & rest & Hscan & Hrest & Hitem).
    rewrite Hscan in Hs. destruct item as [cp|k]; [|discriminate Hs].
    cbn [handle] in Hs.
    destruct (handle strict (scan rest)) as [s'|e] eqn:Hs'; [|discriminate Hs].
    injection Hs as <-. destruct Hitem as (b & Hb & ->).
    cbn [encode]. rewrite Hb, (IH rest) with (s := s'); [reflexivity| |exact Hs'].
    simpl in Hlen. lia.
Qed.

(** What [ignore] decodes can always be encoded. *)
Lemma ignore_then_encode (n : nat) :
  forall bs : bytes, (List.length bs <= n)%nat ->
  exists out, encode (kept (scan bs)) = Some out.
Proof.
  induction n as [|n IH]; intros bs Hlen.
  - destruct bs; [|simpl in Hlen; lia]. exists []. reflexivity.
  - destruct bs as [|b1 r1]; [exists []; reflexivity|].
    destruct (scan_step b1 r1) as (item & rest & -> & Hrest & Hitem).
    destruct (IH rest) as [out Hout]; [simpl in Hlen; lia|].
    destruct item as [cp|k].
    + destruct Hitem as (b & Hb & _). rewrite kept_char. cbn [encode].
      rewrite Hb, Hout. eauto.
    + rewrite kept_bad. eauto.
Qed.

Ltac decide_ranges_div :=
  repeat match goal with
         | |- context [in_range ?lo ?hi ?b] =>
             first [ rewrite (proj2 (in_range_true lo hi b))
                       by (Z.div_mod_to_equations; lia)
                   | rewrite (proj2 (in_range_false lo hi b))
                       by (Z.div_mod_to_equations; lia) ]
         end.

Lemma some_inj {A : Type} (a b : A) : Some a = Some b -> a = b.
Proof. congruence. Qed.

(** The bytes of a code point are scanned as that code point. *)
Lemma scan_encode_cp (cp : Z) (b rest : bytes) :
  encode_cp cp = Some b -> scan (b ++ rest) = Char cp :: scan rest.
Proof.
  unfold encode_cp.
  destruct (in_range 0 127 cp) eqn:H1.
  { intros H; apply some_inj in H; subst b. cbn [app]. rewrite scan_cons, H1. reflexivity. }
  destruct (in_range 128 2047 cp) eqn:H2.
  { intros H; apply some_inj in H; subst b. cbn [app]. rewrite scan_cons. ranges.
    unfold is_cont. decide_ranges_div. cbv iota. unfold cp2.
    do 2 f_equal. Z.div_mod_to_equations. lia. }
  destruct (in_range 2048 65535 cp) eqn:H3.
  { destruct (in_range 55296 57343 cp) eqn:Hs; [discriminate|].
    intros H; apply some_inj in H; subst b. cbn [app]. rewrite scan_cons. ranges.
    unfold second_of_three, is_cont.
    decide_ranges_div.
    destruct (Z.eqb_spec (224 + cp / 4096) 224);
      [|destruct (Z.eqb_spec (224 + cp / 4096) 237)];
      decide_ranges_div; cbv iota; unfold cp3; do 2 f_equal;
      Z.div_mod_to_equations; lia. }
  destruct (in_range 65536 1114111 cp) eqn:H4; [|discriminate].
  intros H; apply some_inj in H; subst b. cbn [app]. rewrite scan_cons. ranges.
  unfold second_of_four, is_cont.
  decide_ranges_div.
  destruct (Z.eqb_spec (240 + cp / 262144) 240);
    [|destruct (Z.eqb_spec (240 + cp / 262144) 244)];
    decide_ranges_div; cbv iota; unfold cp4; do 2 f_equal;
    Z.div_mod_to_equations; lia.
Qed.

(** Text that can be encoded is decoded back from its bytes, under every
    error handler. *)
Lemma encode_then_scan (s : str) :
  forall bs, encode s = Some bs -> scan bs = map Char s.
Proof.
  induction s as [|cp s IH]; intros bs H; cbn [encode] in H.
  - injection H as <-. reflexivity.
  - destruct (encode_cp cp) as [b|] eqn:Hb; [|discriminate].
    destruct (encode s) as [bs'|]; [|discriminate].
    injection H as <-. rewrite (scan_encode_cp cp b bs' Hb), (IH bs' eq_refl).
    reflexivity.
Qed.

Lemma handle_chars (errors : Errors) (s : str) :
  handle errors (map Char s) = Ok s.
Proof.
  induction s as [|cp s IH]; simpl; [reflexivity|]. rewrite IH. reflexivity.
Qed.

End RoundTrip.

(** X8: a payload that is valid UTF-8 is stored byte for byte: the body
    that [Response_text] decodes from it is its strict decoding, and
    encoding that body as UTF-8, as the file opened by [write_digest]
    does, gives the payload back. *)
Theorem valid_payload_is_stored_unchanged
  (response : Response) (bs : bytes) (s : str) :
  payload response = Ok bs ->
  Utf8.decode Utf8.strict bs = Ok s ->
  Response_text response = Ok s /\ Utf8.encode s = Some bs.
Proof.
  intros Hpay Hs. split.
  - unfold Response_text. rewrite Hpay, decode_ignore.
    destruct (handle_strict _ _ Hs) as [-> _]. reflexivity.
  - apply (strict_then_encode (List.length bs) bs (le_n _) s Hs).
Qed.

Lemma valid_payload_is_stored_unchanged_witness :
  let euro := [226; 130; 172; 32; 49; 48] in
  Response_text (Sample.page (data_url 2024 6) euro) = Ok [8364; 32; 49; 48]
  /\ Utf8.encode [8364; 32; 49; 48] = Some euro.
Proof.
  cbv zeta.
  apply (valid_payload_is_stored_unchanged
           (Sample.page (data_url 2024 6) [226; 130; 172; 32; 49; 48])
           [226; 130; 172; 32; 49; 48] [8364; 32; 49; 48]).
  - reflexivity.
  - vm_compute. reflexivity.
Defined.

(** X9: whatever the payload, the body that [Response_text] returns can
    be encoded as UTF-8, so writing it never fails on a character; and
    decoding the stored bytes, strictly or not, gives the body again. *)
Theorem decoded_body_can_be_stored (response : Response) (body : str) :
  Response_text response = Ok body ->
  exists stored,
    Utf8.encode body = Some stored
    /\ Utf8.decode Utf8.strict stored = Ok body
    /\ Utf8.decode Utf8.ignore stored = Ok body.
Proof.
  unfold Response_text. destruct (payload response) as [bs|e]; [|discriminate].
  rewrite decode_ignore. intros [= <-].
  destruct (ignore_then_encode (List.length bs) bs (le_n _)) as [stored Hst].
  exists stored. split; [exact Hst|].
  unfold Utf8.decode. rewrite (encode_then_scan _ _ Hst), !handle_chars.
  split; reflexivity.
Qed.

Lemma decoded_body_can_be_stored_witness :
  exists stored,
    Utf8.encode [65; 8364] = Some stored
    /\ Utf8.decode Utf8.strict stored = Ok [65; 8364]
    /\ Utf8.decode Utf8.ignore stored = Ok [65; 8364].
Proof.
  apply (decoded_body_can_be_stored
           (Sample.page (data_url 2024 6) [65; 255; 226; 130; 172; 237; 160; 128])
           [65; 8364]).
  vm_compute. reflexivity.
Defined.

(* ===================================================================== *)
(** * Further properties: the loop and the main block *)
(* ===================================================================== *)

Section MoreFetch.

Lemma requested_app (a b : list Event) :
  requested (a ++ b) = requested a ++ requested b.
Proof. unfold requested. apply flat_map_app. Qed.

Lemma marks_app (a b : list Event) : marks (a ++ b) = marks a ++ marks b.
Proof. unfold marks. apply flat_map_app. Qed.

(** Log records are read as nothing by the readers of a run. *)
Lemma logs_read (evs : list Event) :
  Forall (fun ev => exists lvl m, ev = EvLog lvl m) evs ->
  requested evs = [] /\ marks evs = [] /\ Forall task_event evs.
Proof.
  induction 1 as [|ev evs (lvl & m & ->) _ (IHr & IHm & IHt)].
  - repeat split. constructor.
  - simpl. repeat split; try assumption. constructor; [exact I|assumption].
Qed.

(** A task of [get_digest]: its GET first, then log records below
    [INFO]. *)
Lemma get_digest_shape (w : World) (options : Options) (u : str) :
  firstn 1 (events (get_digest w options u)) = [EvGet u]
  /\ Forall (fun ev => exists lvl m, ev = EvLog lvl m)
            (skipn 1 (events (get_digest w options u)))
  /\ Forall (fun ev => ~ info_event ev) (events (get_digest w options u)).
Proof.
  rewrite get_digest_unfold.
  destruct (get w u) as [response|e].
  2:{ repeat split; repeat constructor. intros []. }
  destruct (Response_text response) as [body|e].
  2:{ repeat split; repeat constructor; eauto; intros []. }
  destruct (contains MARKER body && (len body <? 100)).
  { repeat split; repeat constructor; eauto; intros []. }
  destruct (status response =? 200).
  2:{ repeat split; repeat constructor; eauto; intros []. }
  destruct (url_to_filename (url response));
    repeat split; repeat constructor; eauto; intros [].
Qed.

Lemma starting_requests (w : World) (options : Options) (urls : list str)
  (started : list nat) :
  flat_map task_start (scheduled (map (get_digest w options) urls) started)
  = map EvGet (scheduled urls started).
Proof.
  rewrite scheduled_map.
  induction (scheduled urls started) as [|u l IH]; [reflexivity|].
  cbn [map flat_map]. rewrite IH. unfold task_start.
  destruct (get_digest_shape w options u) as (-> & _). reflexivity.
Qed.

Lemma requested_gets (urls : list str) : requested (map EvGet urls) = urls.
Proof. induction urls as [|u urls IH]; simpl; [|rewrite IH]; reflexivity. Qed.

Lemma update_if_read_more (pb : option ProgressBar) (it : Z) :
  requested (events (update_if pb it)) = []
  /\ Forall (fun ev => ~ info_event ev) (events (update_if pb it))
  /\ (marks (events (update_if pb it)) = []
      \/ marks (events (update_if pb it)) = [Shown it]).
Proof.
  rewrite update_if_unfold. destruct pb as [p|].
  2:{ repeat split; [constructor|left; reflexivity]. }
  destruct (finished p). { repeat split; [constructor|left; reflexivity]. }
  destruct (ProgressBar_percent p it) as [[]|e].
  2:{ repeat split; [constructor|left; reflexivity]. }
  destruct (it =? total p); simpl; repeat split;
    try (right; reflexivity); repeat constructor; intros [].
Qed.

(** The events of one turn: the update; then, unless the update raised,
    what was starting, the rest of the task, the marker of the await and
    what the write did. *)
Lemma fetch_body_events (w : World) (pb : option ProgressBar) (idx : Z)
  (starting : list Event) (task : Task) :
  exists tail,
    events (fetch_body w pb idx starting task)
    = events (update_if pb (idx + 1))
        ++ match result (update_if pb (idx + 1)) with
           | Ok _ => starting ++ skipn 1 (events task) ++ [EvAwaited idx] ++ tail
           | Raise _ => []
           end
    /\ (tail = []
        \/ exists path body,
             tail = [EvFileWrite path body; EvLog DEBUG (SavedDigest path)]).
Proof.
  rewrite fetch_body_unfold.
  destruct (result (update_if pb (idx + 1))) as [pb'|e].
  2:{ exists []. rewrite app_nil_r. split; [reflexivity|left; reflexivity]. }
  cbv zeta.
  destruct (result task) as [[[path body]|]|e].
  - destruct (disk_accepts w path body).
    + eexists. split; [|right; eauto]. cbn [events fst].
      rewrite <- !app_assoc. reflexivity.
    + exists []. rewrite app_nil_r. split; [reflexivity|left; reflexivity].
  - exists []. rewrite app_nil_r. split; [reflexivity|left; reflexivity].
  - exists []. rewrite app_nil_r. split; [reflexivity|left; reflexivity].
Qed.

(** The loop issues no request of its own: the requests of a run are
    those of the tasks that were starting, sent in the first turn. *)
Lemma fetch_loop_requested (w : World) (completed : list Task) :
  Forall (fun t => Forall (fun ev => exists lvl m, ev = EvLog lvl m)
                          (skipn 1 (events t))) completed ->
  forall (pb : option ProgressBar) (idx : Z) (starting : list Event),
  sound_bar pb ->
  requested (events (fetch_loop w pb idx starting completed))
  = match completed with [] => [] | _ :: _ => requested starting end.
Proof.
  induction 1 as [|task rest Htask _ IH]; intros pb idx starting Hs; [reflexivity|].
  rewrite fetch_loop_cons.
  destruct (fetch_body_events w pb idx starting task) as (tail & Hev & Htail).
  destruct (update_if_read_more pb (idx + 1)) as (Ur & _).
  destruct (logs_read _ Htask) as (Tr & _).
  destruct (update_if_sound pb (idx + 1) Hs) as (pb1 & Hu & _).
  rewrite Hu in Hev.
  assert (Hbody : requested (events (fetch_body w pb idx starting task))
                  = requested starting).
  { rewrite Hev, !requested_app, Ur, Tr.
    destruct Htail as [->|(path & body & ->)]; simpl; rewrite app_nil_r; reflexivity. }
  destruct (result (fetch_body w pb idx starting task)) as [pb'|e] eqn:Hr;
    cbn [events fst]; [|exact Hbody].
  rewrite requested_app, Hbody.
  assert (Hs' : sound_bar pb').
  { rewrite fetch_body_unfold, Hu in Hr. cbv zeta in Hr.
    destruct (update_if_sound pb (idx + 1) Hs) as (pb2 & Hu2 & Hs2).
    rewrite Hu in Hu2. injection Hu2 as <-.
    destruct (result task) as [[[path body]|]|e]; [| |discriminate Hr].
    - destruct (disk_accepts w path body); [|discriminate Hr].
      injection Hr as <-. exact Hs2.
    - injection Hr as <-. exact Hs2. }
  rewrite (IH pb' (idx + 1) [] Hs'). destruct rest; simpl; apply app_nil_r.
Qed.

End MoreFetch.

(** X12: the requests of a run go out when the loop first awaits, one for
    every task, in the order in which the tasks were started; that is the
    iteration order of a set and need not be the order of the list.  So
    every candidate URL is requested exactly once, however the run ends
    afterwards; when the login raises, or when there is nothing to await,
    nothing is requested. *)
Theorem every_url_is_requested_once
  (w : World) (started order : list nat) (urls : list str) (options : Options) :
  let run := fetch w started order urls options (progress options urls) in
  Permutation started (seq 0 (List.length urls)) ->
  requested (events run)
  = match post w, as_completed (map (get_digest w options) urls) order with
    | Ok _, _ :: _ => scheduled urls started
    | _, _ => []
    end
  /\ Permutation (scheduled urls started) urls
  /\ (post w = Ok tt ->
      as_completed (map (get_digest w options) urls) order <> [] ->
      Permutation (requested (events run)) urls).
Proof.
  intros run Hstarted.
  assert (Hreq : requested (events run)
            = match post w, as_completed (map (get_digest w options) urls) order with
              | Ok _, _ :: _ => scheduled urls started
              | _, _ => []
              end).
  { unfold run. rewrite fetch_unfold. cbv zeta.
    destruct (post w) as [[]|e]; [|reflexivity].
    cbn [events fst].
    change (EvSessionOpen :: EvPost AUTH_URL (username options) (password options)
              :: ?l) with ([EvSessionOpen;
              EvPost AUTH_URL (username options) (password options)] ++ l).
    rewrite !requested_app. cbn [requested flat_map app]. rewrite app_nil_r.
    destruct urls as [|u urls'] eqn:Hurls.
    { simpl map. rewrite (as_completed_nil order). reflexivity. }
    rewrite <- Hurls.
    rewrite fetch_loop_requested.
    - rewrite starting_requests, requested_gets.
      destruct (as_completed _ order); reflexivity.
    - rewrite Forall_forall. intros t Ht. apply as_completed_In in Ht.
      rewrite in_map_iff in Ht. destruct Ht as (u0 & <- & _).
      apply get_digest_shape.
    - apply progress_sound. rewrite Hurls. discriminate. }
  assert (Hperm : Permutation (scheduled urls started) urls)
    by (apply as_completed_perm; exact Hstarted).
  split; [exact Hreq|]. split; [exact Hperm|].
  intros Hpost Hloop. rewrite Hreq, Hpost.
  destruct (as_completed (map (get_digest w options) urls) order);
    [contradiction|exact Hperm].
Qed.

Lemma every_url_is_requested_once_witness :
  let run := fetch Sample.archive [1%nat; 0%nat] [1%nat; 0%nat] Sample.two_urls
               Sample.options (progress Sample.options Sample.two_urls) in
  requested (events run) = [data_url 2024 7; data_url 2024 6]
  /\ Permutation (requested (events run)) Sample.two_urls.
Proof.
  cbv zeta.
  destruct (every_url_is_requested_once Sample.archive [1%nat; 0%nat]
              [1%nat; 0%nat] Sample.two_urls Sample.options) as (Hreq & _ & Hperm).
  - apply perm_swap.
  - split; [rewrite Hreq; reflexivity|].
    apply Hperm; [reflexivity|discriminate].
Defined.

Section Abort.

(** A turn on a task that raised: the exception leaves the turn at the
    [await]; nothing is written. *)
Lemma fetch_body_raised (w : World) (pb : option ProgressBar) (idx : Z)
  (starting : list Event) (task : Task) (e : Exn) :
  sound_bar pb ->
  Forall task_event starting -> Forall task_event (events task) ->
  result task = Raise e ->
  result (fetch_body w pb idx starting task) = Raise e
  /\ written (events (fetch_body w pb idx starting task)) = []
  /\ awaited (events (fetch_body w pb idx starting task)) = [idx].
Proof.
  intros Hs Hst Htk Hr. rewrite fetch_body_unfold.
  destruct (update_if_read pb (idx + 1)) as (Uw & Ua & _ & _).
  destruct (task_events_read starting Hst) as (Sw & _ & Sa & _).
  destruct (task_events_read _ (Forall_skipn _ 1 _ Htk)) as (Tw & _ & Ta & _).
  destruct (update_if_sound pb (idx + 1) Hs) as (pb' & -> & _).
  cbv zeta. rewrite Hr. cbn [events result fst snd].
  rewrite !written_app, !awaited_app, Uw, Ua, Sw, Sa, Tw, Ta.
  repeat split.
Qed.

(** The turns on a prefix of tasks that returned and were written: the
    loop goes on with the rest from the next position, nothing starting
    any more unless the prefix is empty. *)
Lemma fetch_loop_after_prefix (w : World) (before : list Task) :
  Forall (fun t => Forall task_event (events t)) before ->
  (forall t, In t before -> exists r, result t = Ok r) ->
  (forall p b, In (p, b) (successes before) -> disk_accepts w p b = true) ->
  forall (rest : list Task) (pb : option ProgressBar) (idx : Z)
         (starting : list Event),
  sound_bar pb -> Forall task_event starting ->
  exists pre pb' starting',
    sound_bar pb' /\ Forall task_event starting'
    /\ events (fetch_loop w pb idx starting (before ++ rest))
       = pre ++ events (fetch_loop w pb' (idx + len before) starting' rest)
    /\ result (fetch_loop w pb idx starting (before ++ rest))
       = result (fetch_loop w pb' (idx + len before) starting' rest)
    /\ written pre = successes before
    /\ awaited pre = positions idx (List.length before).
Proof.
  induction 1 as [|t before Ht _ IH]; intros Hret Hdisk rest pb idx starting Hs Hst.
  - exists [], pb, starting. unfold len. simpl. rewrite Z.add_0_r.
    repeat split; assumption.
  - cbn [app]. rewrite fetch_loop_cons.
    cbn [List.length]. rewrite positions_cons.
    change (t :: before) with ([t] ++ before) in Hret, Hdisk |- *.
    rewrite successes_app in *.
    destruct (Hret t (or_introl eq_refl)) as [r Hr].
    destruct (fetch_body_ok w pb idx starting t r Hs Hst Ht Hr)
      as (pb1 & -> & Hs1 & Bw & Ba).
    { intros p b ->. apply Hdisk. apply in_or_app. left.
      unfold successes. simpl. rewrite Hr. left. reflexivity. }
    destruct (IH (fun t' Ht' => Hret t' (or_intror Ht'))
                 (fun p b Hin => Hdisk p b (in_or_app _ _ _ (or_intror Hin)))
                 rest pb1 (idx + 1) [] Hs1 (Forall_nil _))
      as (pre & pb' & starting' & Hs' & Hst' & Hev & Hres & Hw & Ha).
    exists (events (fetch_body w pb idx starting t) ++ pre), pb', starting'.
    cbn [events result fst snd].
    match goal with
    | |- context [fetch_loop w pb' ?i starting' rest] =>
        replace i with (idx + 1 + len before)
          by (unfold len, Task; cbn [List.length app]; lia)
    end.
    split; [exact Hs'|]. split; [exact Hst'|].
    split; [rewrite Hev, <- app_assoc; reflexivity|].
    split; [exact Hres|].
    rewrite written_app, awaited_app, Bw, Ba, Hw, Ha. split; reflexivity.
Qed.

End Abort.

(** X13: an exception of one GET ends the run.  When the task at some
    place in the completion order raised, the exception leaves [fetch] at
    the [await] of that task: the files written are the pairs of the
    tasks that completed before it, and no later outcome is awaited, even
    if later tasks returned a pair. *)
Theorem raised_get_ends_the_run
  (w : World) (started order : list nat) (urls : list str) (options : Options)
  (before : list Task) (task : Task) (after : list Task) (e : Exn) :
  let tasks := map (get_digest w options) urls in
  let run := fetch w started order urls options (progress options urls) in
  as_completed tasks order = before ++ task :: after ->
  post w = Ok tt ->
  (forall t, In t before -> exists r, result t = Ok r) ->
  (forall p b, In (p, b) (successes before) -> disk_accepts w p b = true) ->
  result task = Raise e ->
  result run = Raise e
  /\ written (events run) = successes before
  /\ awaited (events run) = positions 0 (S (List.length before)).
Proof.
  intros tasks run Hsplit Hpost Hret Hdisk Hr.
  destruct (tasks_task_events w options urls started order) as [Htasks Hstart].
  fold tasks in Htasks, Hstart. rewrite Hsplit in Htasks.
  apply Forall_app in Htasks. destruct Htasks as [Hbefore Hrest].
  inversion Hrest as [|? ? Htask _]; subst.
  assert (Hs : sound_bar (progress options urls)).
  { apply progress_sound. intros ->. unfold tasks in Hsplit.
    simpl in Hsplit. rewrite as_completed_nil in Hsplit.
    destruct before; discriminate. }
  destruct (fetch_loop_after_prefix w before Hbefore Hret Hdisk (task :: after)
              (progress options urls) 0
              (flat_map task_start (scheduled tasks started)) Hs Hstart)
    as (pre & pb' & starting' & Hs' & Hst' & Hev & Hres & Hw & Ha).
  rewrite fetch_loop_cons in Hev, Hres.
  destruct (fetch_body_raised w pb' (0 + len before) starting' task e
              Hs' Hst' Htask Hr) as (Br & Bw & Ba).
  rewrite Br in Hev, Hres. cbn [events result fst snd] in Hev, Hres.
  split; [|split].
  - unfold run. rewrite fetch_unfold. cbv zeta. fold tasks.
    rewrite Hpost, Hsplit. exact Hres.
  - unfold run. rewrite written_fetch, Hpost. fold tasks.
    rewrite Hsplit, Hev, written_app, Hw, Bw. apply app_nil_r.
  - unfold run. rewrite awaited_fetch, Hpost. fold tasks.
    rewrite Hsplit, Hev, awaited_app, Ha, Ba.
    unfold positions. rewrite seq_S, map_app. simpl. unfold len. reflexivity.
Qed.

Lemma raised_get_ends_the_run_witness :
  let w := Sample.flaky in
  let run := fetch w [0%nat; 1%nat] [1%nat; 0%nat]
               Sample.two_urls Sample.options
               (progress Sample.options Sample.two_urls) in
  result run = Raise ClientError
  /\ written (events run) = successes []
  /\ awaited (events run) = positions 0 1.
Proof.
  cbv zeta.
  apply (raised_get_ends_the_run Sample.flaky [0%nat; 1%nat] [1%nat; 0%nat]
           Sample.two_urls Sample.options
           []
           (get_digest Sample.flaky Sample.options (data_url 2024 7))
           [get_digest Sample.flaky Sample.options (data_url 2024 6)]
           ClientError).
  - reflexivity.
  - reflexivity.
  - intros t [].
  - intros p b [].
  - vm_compute. reflexivity.
Defined.

Section Marks.

Lemma task_events_marks (evs : list Event) :
  Forall task_event evs -> marks evs = [].
Proof.
  induction 1 as [|ev evs Hev _ IH]; [reflexivity|].
  destruct ev; try contradiction; exact IH.
Qed.

(** The update of a live bar that still has [n + 1] positions to go. *)
Lemma update_if_live (p : ProgressBar) (idx : Z) (n : nat) :
  finished p = false -> 0 <= decimals p <= INT_MAX ->
  0 <= idx -> total p = idx + Z.of_nat (S n) ->
  exists pb1 p1,
    result (update_if (Some p) (idx + 1)) = Ok pb1 /\ pb1 = Some p1
    /\ marks (events (update_if (Some p) (idx + 1))) = [Shown (idx + 1)]
    /\ (n <> O -> finished p1 = false /\ 0 <= decimals p1 <= INT_MAX
                  /\ total p1 = idx + 1 + Z.of_nat n).
Proof.
  intros Hf Hd Hidx Ht. rewrite update_if_unfold, Hf.
  assert (Hp : ProgressBar_percent p (idx + 1) = Ok tt)
    by (apply ProgressBar_percent_ok; split; [lia|exact Hd]).
  rewrite Hp.
  destruct (Z.eqb_spec (idx + 1) (total p)) as [Heq|Hne].
  - exists (Some (set_finished p)), (set_finished p).
    repeat split; try reflexivity; lia.
  - exists (Some p), p. repeat split; try reflexivity; try assumption; lia.
Qed.

Lemma fetch_loop_marks (w : World) (completed : list Task) :
  Forall (fun t => Forall task_event (events t)) completed ->
  (forall t, In t completed -> exists r, result t = Ok r) ->
  (forall p b, In (p, b) (successes completed) -> disk_accepts w p b = true) ->
  forall (pb : option ProgressBar) (idx : Z) (starting : list Event),
  Forall task_event starting -> 0 <= idx ->
  match pb with
  | Some p => finished p = false /\ 0 <= decimals p <= INT_MAX
              /\ total p = idx + Z.of_nat (List.length completed)
  | None => True
  end ->
  marks (events (fetch_loop w pb idx starting completed))
  = flat_map (fun i => (if has_bar pb then [Shown (i + 1)] else []) ++ [Received i])
             (positions idx (List.length completed)).
Proof.
  induction 1 as [|task rest Htask _ IH];
    intros Hret Hdisk pb idx starting Hst Hidx Hbar; [reflexivity|].
  rewrite fetch_loop_cons. cbn [List.length] in *. rewrite positions_cons.
  cbn [flat_map].
  destruct (Hret task (or_introl eq_refl)) as [r Hr].
  assert (Hd : forall path body, r = Some (path, body) ->
                                 disk_accepts w path body = true).
  { intros path body ->. apply Hdisk. unfold successes. simpl. rewrite Hr.
    left. reflexivity. }
  pose proof (task_events_marks _ Hst) as Ms.
  pose proof (task_events_marks _ (Forall_skipn _ 1 _ Htask)) as Mt.
  assert (HU : exists pb1,
            result (update_if pb (idx + 1)) = Ok pb1
            /\ marks (events (update_if pb (idx + 1)))
               = (if has_bar pb then [Shown (idx + 1)] else [])
            /\ has_bar pb1 = has_bar pb
            /\ (rest <> [] ->
                match pb1 with
                | Some p => finished p = false /\ 0 <= decimals p <= INT_MAX
                            /\ total p = idx + 1 + Z.of_nat (List.length rest)
                | None => True
                end)).
  { destruct pb as [p|].
    - destruct Hbar as (Hf & Hdec & Ht).
      destruct (update_if_live p idx (List.length rest) Hf Hdec Hidx Ht)
        as (pb1 & p1 & Hu & -> & Hm & Hnext).
      exists (Some p1). split; [exact Hu|]. split; [exact Hm|].
      split; [reflexivity|].
      intros Hrest. apply Hnext. destruct rest; [contradiction|discriminate].
    - exists None. repeat split. }
  destruct HU as (pb1 & Hu & Mu & Hshape & Hnext).
  rewrite fetch_body_unfold, Hu. cbv zeta. rewrite Hr.
  assert (Hbody : forall tail, marks tail = [] ->
            marks ((events (update_if pb (idx + 1)) ++ starting
                     ++ skipn 1 (events task) ++ [EvAwaited idx]) ++ tail)
            = (if has_bar pb then [Shown (idx + 1)] else []) ++ [Received idx]).
  { intros tail Htail. rewrite !marks_app, Mu, Ms, Mt, Htail. simpl.
    rewrite app_nil_r. reflexivity. }
  assert (Hrest : marks (events (fetch_loop w pb1 (idx + 1) [] rest))
                  = flat_map (fun i => (if has_bar pb then [Shown (i + 1)] else [])
                                         ++ [Received i])
                             (positions (idx + 1) (List.length rest))).
  { assert (Hdisk' : forall p b, In (p, b) (successes rest) ->
                                 disk_accepts w p b = true).
    { intros p b Hin. apply Hdisk. change (task :: rest) with ([task] ++ rest).
      rewrite successes_app. apply in_or_app. right. exact Hin. }
    destruct rest as [|t' rest']; [reflexivity|].
    rewrite (IH (fun t Ht => Hret t (or_intror Ht)) Hdisk'
                pb1 (idx + 1) [] (Forall_nil _) ltac:(lia)
                (Hnext ltac:(discriminate))).
    rewrite Hshape. reflexivity. }
  destruct r as [[path body]|].
  - rewrite (Hd path body eq_refl). cbn [events result fst snd].
    rewrite marks_app, Hbody by reflexivity. rewrite Hrest. reflexivity.
  - cbn [events result fst snd].
    rewrite marks_app, <- (app_nil_r (_ ++ _ ++ _ ++ [EvAwaited idx])),
      Hbody by reflexivity.
    rewrite Hrest. reflexivity.
Qed.

Lemma printed_of_marks (evs : list Event) :
  printed evs
  = flat_map (fun m => match m with Shown it => [it] | Received _ => [] end)
             (marks evs).
Proof.
  induction evs as [|ev evs IH]; [reflexivity|].
  destruct ev; simpl; rewrite ?IH; reflexivity.
Qed.

Lemma count_occ_positions (idx x : Z) (n : nat) :
  idx <= x < idx + Z.of_nat n ->
  count_occ Z.eq_dec (positions idx n) x = 1%nat.
Proof.
  revert idx. induction n as [|n IH]; intros idx H; [lia|].
  rewrite positions_cons. simpl.
  destruct (Z.eq_dec idx x) as [->|Hne].
  - f_equal. apply count_occ_not_In. unfold positions. rewrite in_map_iff.
    intros (k & Hk & _). lia.
  - apply IH. lia.
Qed.

End Marks.

Lemma marks_fetch (w : World) (started order : list nat) (urls : list str)
  (options : Options) (pb : option ProgressBar) :
  marks (events (fetch w started order urls options pb)) =
  match post w with
  | Ok _ => marks (events (fetch_loop w pb 0
                    (flat_map task_start
                         (scheduled (map (get_digest w options) urls) started))
                    (as_completed (map (get_digest w options) urls) order)))
  | Raise _ => []
  end.
Proof.
  rewrite fetch_unfold. cbv zeta. destruct (post w) as [[]|e]; [|reflexivity].
  cbn [events fst].
  change (EvSessionOpen :: EvPost AUTH_URL (username options) (password options)
            :: ?l) with ([EvSessionOpen;
            EvPost AUTH_URL (username options) (password options)] ++ l).
  rewrite !marks_app. simpl. apply app_nil_r.
Qed.

Lemma shown_positions (idx : Z) (n : nat) :
  flat_map (fun m => match m with Shown it => [it] | Received _ => [] end)
    (flat_map (fun i => [Shown (i + 1)] ++ [Received i]) (positions idx n))
  = positions (idx + 1) n.
Proof.
  revert idx. induction n as [|n IH]; intros idx; [reflexivity|].
  rewrite !positions_cons. cbn [flat_map app]. rewrite IH. reflexivity.
Qed.

Lemma shown_nothing (idx : Z) (n : nat) :
  flat_map (fun m => match m with Shown it => [it] | Received _ => [] end)
    (flat_map (fun i => [] ++ [Received i]) (positions idx n))
  = [].
Proof.
  revert idx. induction n as [|n IH]; intros idx; [reflexivity|].
  rewrite positions_cons. cbn [flat_map app]. apply IH.
Qed.

(** X11: in a run in which the login and every fetch return and no write
    fails, the bar and the loop alternate, the bar first: it is shown for
    position [i + 1] before the outcome at position [i] is received, so
    the full bar stands before the last outcome has arrived.  The bar is
    printed for 1, 2, ..., N in turn, the full bar exactly once; a verbose
    run prints no bar at all. *)
Theorem bar_runs_one_ahead
  (w : World) (started order : list nat) (urls : list str) (options : Options) :
  let tasks := map (get_digest w options) urls in
  let run := fetch w started order urls options (progress options urls) in
  Permutation order (seq 0 (List.length urls)) ->
  post w = Ok tt ->
  (forall t, In t tasks -> exists r, result t = Ok r) ->
  (forall path body, In (path, body) (successes tasks) ->
                     disk_accepts w path body = true) ->
  marks (events run)
  = flat_map (fun i => (if verbose options then [] else [Shown (i + 1)])
                         ++ [Received i])
             (positions 0 (List.length urls))
  /\ printed (events run)
     = (if verbose options then [] else positions 1 (List.length urls))
  /\ (verbose options = false -> urls <> [] ->
      full_bars (len urls) (events run) = 1%nat).
Proof.
  intros tasks run Hperm Hpost Hret Hdisk.
  assert (Hp : Permutation (as_completed tasks order) tasks).
  { apply as_completed_perm. unfold tasks. rewrite length_map. exact Hperm. }
  assert (Hlen : List.length (as_completed tasks order) = List.length urls).
  { rewrite (Permutation_length Hp). unfold tasks. apply length_map. }
  destruct (tasks_task_events w options urls started order) as [Htasks Hstart].
  fold tasks in Htasks, Hstart.
  assert (Hmarks : marks (events run)
            = flat_map (fun i => (if verbose options then [] else [Shown (i + 1)])
                                   ++ [Received i])
                       (positions 0 (List.length urls))).
  { unfold run. rewrite marks_fetch, Hpost. fold tasks.
    rewrite (fetch_loop_marks w _ Htasks).
    - match goal with
      | |- context [positions 0 ?n] =>
          replace n with (List.length urls) by (symmetry; exact Hlen)
      end.
      apply flat_map_ext. intros i. unfold progress.
      destruct (verbose options); reflexivity.
    - intros t Ht. apply Hret. eapply Permutation_in; eassumption.
    - intros p b Hin. apply Hdisk.
      eapply Permutation_in; [apply successes_perm; exact Hp|exact Hin].
    - exact Hstart.
    - lia.
    - unfold progress. destruct (verbose options); [exact I|].
      split; [reflexivity|]. split; [unfold INT_MAX; simpl; lia|].
      transitivity (0 + Z.of_nat (List.length urls)); [reflexivity|].
      do 2 f_equal. symmetry. exact Hlen. }
  assert (Hprinted : printed (events run)
            = (if verbose options then [] else positions 1 (List.length urls))).
  { rewrite printed_of_marks, Hmarks. destruct (verbose options).
    - apply shown_nothing.
    - apply (shown_positions 0). }
  split; [exact Hmarks|]. split; [exact Hprinted|].
  intros Hv Hne. unfold full_bars. rewrite Hprinted, Hv.
  apply count_occ_positions. unfold len.
  destruct urls; [contradiction|]. simpl List.length. lia.
Qed.

Lemma bar_runs_one_ahead_witness :
  let run := fetch Sample.archive [0%nat; 1%nat] [1%nat; 0%nat]
               Sample.two_urls Sample.options
               (progress Sample.options Sample.two_urls) in
  marks (events run) = [Shown 1; Received 0; Shown 2; Received 1]
  /\ printed (events run) = [1; 2]
  /\ full_bars 2 (events run) = 1%nat.
Proof.
  cbv zeta.
  destruct (bar_runs_one_ahead Sample.archive [0%nat; 1%nat] [1%nat; 0%nat]
              Sample.two_urls Sample.options) as (Hm & Hp & Hf).
  - apply perm_swap.
  - reflexivity.
  - intros t [<-|[<-|[]]]; eexists; vm_compute; reflexivity.
  - intros path body _. reflexivity.
  - split; [exact Hm|]. split; [exact Hp|].
    apply Hf; [reflexivity|discriminate].
Defined.

Section Main.

Lemma fetch_loop_no_info (w : World) (completed : list Task) :
  Forall (fun t => Forall (fun ev => ~ info_event ev) (events t)) completed ->
  forall (pb : option ProgressBar) (idx : Z) (starting : list Event),
  Forall (fun ev => ~ info_event ev) starting ->
  Forall (fun ev => ~ info_event ev)
         (events (fetch_loop w pb idx starting completed)).
Proof.
  induction 1 as [|task rest Htask _ IH]; intros pb idx starting Hst;
    [constructor|].
  rewrite fetch_loop_cons.
  destruct (fetch_body_events w pb idx starting task) as (tail & Hev & Htail).
  destruct (update_if_read_more pb (idx + 1)) as (_ & Ui & _).
  assert (Hbody : Forall (fun ev => ~ info_event ev)
                         (events (fetch_body w pb idx starting task))).
  { rewrite Hev. apply Forall_app. split; [exact Ui|].
    destruct (result (update_if pb (idx + 1))); [|constructor].
    repeat (apply Forall_app; split); try assumption.
    - apply Forall_skipn. exact Htask.
    - constructor; [intros []|constructor].
    - destruct Htail as [->|(path & body & ->)]; repeat constructor; intros []. }
  destruct (result (fetch_body w pb idx starting task)) as [pb'|e];
    cbn [events fst]; [|exact Hbody].
  apply Forall_app. split; [exact Hbody|]. apply IH. constructor.
Qed.

(** [fetch] logs nothing at level [INFO]. *)
Lemma fetch_no_info (w : World) (started order : list nat) (urls : list str)
  (options : Options) (pb : option ProgressBar) :
  Forall (fun ev => ~ info_event ev) (events (fetch w started order urls options pb)).
Proof.
  rewrite fetch_unfold. cbv zeta.
  destruct (post w) as [[]|e]; cbn [events fst].
  2:{ repeat constructor; intros []. }
  constructor; [intros []|]. constructor; [intros []|].
  apply Forall_app. split; [|repeat constructor; intros []].
  apply fetch_loop_no_info.
  - rewrite Forall_forall. intros t Ht. apply as_completed_In in Ht.
    rewrite in_map_iff in Ht. destruct Ht as (u & <- & _).
    apply get_digest_shape.
  - rewrite starting_requests. rewrite Forall_forall. intros ev Hev.
    rewrite in_map_iff in Hev. destruct Hev as (u & <- & _). intros [].
Qed.

(** Every file [fetch] writes is the destination of a pair returned by a
    task. *)
Lemma written_by_fetch_well_placed (w : World) (started order : list nat)
  (urls : list str) (options : Options) (pb : option ProgressBar)
  (file : Path) (content : str) :
  In (file, content) (written (events (fetch w started order urls options pb))) ->
  well_placed w options file.
Proof.
  intros Hin.
  rewrite written_fetch in Hin. destruct (post w) as [[]|e]; [|destruct Hin].
  destruct (tasks_task_events w options urls started order) as [Htasks Hstart].
  destruct (fetch_loop_general w _ Htasks pb 0 _ Hstart) as (_ & _ & _ & Hincl).
  apply Hincl in Hin. apply successes_In in Hin. destruct Hin as (t & Ht & Hr).
  apply as_completed_In in Ht. rewrite in_map_iff in Ht.
  destruct Ht as (u & <- & _). exact (get_digest_well_placed _ _ _ _ _ Hr).
Qed.

(** The main block: the announcement, [fetch], and the two closing
    records when [fetch] returned. *)
Lemma main_unfold (w : World) (started order : list nat) (now_year : Z)
  (options : Options) :
  main w started order now_year options =
  let urls := all_urls now_year in
  let f := fetch w started order urls options (progress options urls) in
  (EvLog DEBUG (ScrapingFrom (len urls))
     :: events f
     ++ match result f with
        | Ok _ => [EvLog INFO (FilesSavedTo (absolute (cwd w) (out_dir options)));
                   EvLog INFO Completed]
        | Raise _ => []
        end,
   result f).
Proof.
  unfold main. cbv zeta.
  destruct (fetch w started order (all_urls now_year) options _) as [evs [[]|e]]; simpl.
  - reflexivity.
  - rewrite app_nil_r. reflexivity.
Qed.

End Main.

(** X14: the main block reports only a run that came to its end: the
    record that the run is completed is logged exactly when [fetch]
    returned, an exception of [fetch] leaves the main block, and the
    directory named in the closing record is the directory of every file
    the run wrote. *)
Theorem main_reports_a_finished_run
  (w : World) (started order : list nat) (now_year : Z) (options : Options) :
  let urls := all_urls now_year in
  let run := main w started order now_year options in
  result run = result (fetch w started order urls options (progress options urls))
  /\ (In (EvLog INFO Completed) (events run) <-> result run = Ok tt)
  /\ (forall dir, In (EvLog INFO (FilesSavedTo dir)) (events run) ->
        dir = absolute (cwd w) (out_dir options)
        /\ forall file content,
             In (file, content) (written (events run)) -> parent file = dir).
Proof.
  cbv zeta. rewrite main_unfold. cbv zeta.
  set (f := fetch w started order (all_urls now_year) options
              (progress options (all_urls now_year))).
  pose proof (fetch_no_info w started order (all_urls now_year) options
                (progress options (all_urls now_year))) as Hni.
  fold f in Hni. rewrite Forall_forall in Hni.
  cbn [events result fst snd].
  assert (Htail : forall m, In (EvLog INFO m)
            (EvLog DEBUG (ScrapingFrom (len (all_urls now_year))) :: events f
               ++ match result f with
                  | Ok _ => [EvLog INFO
                               (FilesSavedTo (absolute (cwd w) (out_dir options)));
                             EvLog INFO Completed]
                  | Raise _ => []
                  end) ->
            result f = Ok tt
            /\ (m = FilesSavedTo (absolute (cwd w) (out_dir options))
                \/ m = Completed)).
  { intros m [H|H]; [discriminate H|].
    apply in_app_or in H. destruct H as [H|H]; [destruct (Hni _ H I)|].
    destruct (result f) as [[]|e]; [|destruct H].
    split; [reflexivity|].
    destruct H as [H|[H|[]]]; injection H as <-; [left|right]; reflexivity. }
  split; [reflexivity|]. split; [split|].
  - intros H. apply Htail in H. apply H.
  - intros ->. right. apply in_or_app. right. right. left. reflexivity.
  - intros dir H. apply Htail in H. destruct H as [Hok [H|H]]; [|discriminate H].
    injection H as ->. split; [reflexivity|].
    intros file content Hin.
    change (EvLog DEBUG (ScrapingFrom (len (all_urls now_year))) :: ?l)
      with ([EvLog DEBUG (ScrapingFrom (len (all_urls now_year)))] ++ l) in Hin.
    rewrite !written_app, Hok in Hin. simpl in Hin. rewrite app_nil_r in Hin.
    apply (written_by_fetch_well_placed w started order _ options _ file content Hin).
Qed.

Lemma main_reports_a_finished_run_witness :
  In (EvLog INFO Completed)
     (events (main Sample.archive (seq 0 12) (seq 0 12) 2000 Sample.options))
  /\ ~ In (EvLog INFO Completed)
          (events (main Sample.flaky (seq 0 300) [294%nat] 2024 Sample.options)).
Proof.
  split.
  - apply (proj1 (proj2 (main_reports_a_finished_run
                           Sample.archive (seq 0 12) (seq 0 12) 2000 Sample.options))).
    vm_compute. reflexivity.
  - intros H.
    apply (proj1 (proj2 (main_reports_a_finished_run
                           Sample.flaky (seq 0 300) [294%nat] 2024 Sample.options))) in H.
    vm_compute in H. discriminate H.
Defined.
